(** * caffix/resolvers: the exchange table (xchg.go) and the connection pool

    A shallow embedding of the two components of package [resolve], and the
    properties of them that the specification states.

    Conventions of the embedding.
    - A method with a pointer receiver is a computation in a state-and-failure
      monad over the receiver's state: it returns a value and the new state,
      panics, or blocks for ever.
    - [sync.Mutex] is the boolean "held" of the struct that embeds it.  Every
      method that starts with [r.Lock(); defer r.Unlock()] is wrapped in
      [critical]; [Lock] on a mutex that is already held blocks, since the
      only holder in a sequential run is the caller itself.
    - Go's [error] is [option string]: [None] is [nil], [Some m] carries the
      message.  A nilable pointer is an [option] too.
    - A panic unwinds through the deferred [Unlock] and ends the process, so
      [Panic] keeps no state.
    - A [go] statement is recorded in the process, and the goroutine is not
      run.  What a goroutine does is a computation of its own: [rotate],
      which the rotation timer calls, runs between two calls on the pool
      (every method holds the mutex from its first statement to its return),
      and [responses] is the read loop of one socket.  The timers and the
      delayed closes are not part of the embedding.
    - Calls whose result the code discards and which touch nothing the pool
      or the table hold ([SetDeadline], [SetWriteDeadline]) are left out. *)

From Stdlib Require Import ZArith String Ascii DecimalString DecimalN DecimalPos.
From stdpp Require Import gmap strings list fin_maps.

Local Open Scope Z_scope.

(** ** Computations *)

Inductive outcome (S A : Type) : Type :=
| Ret (a : A) (s : S)      (* normal return, with the state left behind *)
| Panic (msg : string)     (* run-time panic *)
| Blocked.                 (* the goroutine never resumes *)
Arguments Ret {S A} a s.
Arguments Panic {S A} msg.
Arguments Blocked {S A}.

Definition M (S A : Type) : Type := S -> outcome S A.

Definition ret {S A} (a : A) : M S A := fun s => Ret a s.

Definition bind {S A B} (m : M S A) (k : A -> M S B) : M S B :=
  fun s => match m s with
           | Ret a s' => k a s'
           | Panic msg => Panic msg
           | Blocked => Blocked
           end.

Definition gets {S A} (f : S -> A) : M S A := fun s => Ret (f s) s.
Definition modify {S} (f : S -> S) : M S unit := fun s => Ret tt (f s).
Definition panic {S A} (msg : string) : M S A := fun _ => Panic msg.

Declare Scope go_scope.
Delimit Scope go_scope with go.
Notation "x <- m ;; k" := (bind m (fun x => k))
  (at level 100, m at next level, right associativity) : go_scope.
Notation "m ;;; k" := (bind m (fun _ => k))
  (at level 100, right associativity) : go_scope.
Local Open Scope go_scope.

(** [sync.Mutex], embedded in a struct of state [S]. *)
Class Mutex (S : Type) := { held : S -> bool; set_held : bool -> S -> S }.

Definition Lock {S} `{Mutex S} : M S unit :=
  fun s => if held s then Blocked else Ret tt (set_held true s).

Definition Unlock {S} `{Mutex S} : M S unit :=
  fun s => if held s then Ret tt (set_held false s)
           else Panic "sync: unlock of unlocked mutex".

(** [r.Lock(); defer r.Unlock(); body]. *)
Definition critical {S A} `{Mutex S} (body : M S A) : M S A :=
  Lock ;;; a <- body ;; Unlock ;;; ret a.

(** ** Library functions the code calls *)

(** [time.Time] as the number of nanoseconds since the zero instant, and
    [time.Duration] as a number of nanoseconds. *)
Module time.
Definition Time := Z.
Definition Duration := Z.
Definition Second : Duration := 1000000000.
Definition IsZero (t : Time) : bool := t =? 0.
Definition Add (t : Time) (d : Duration) : Time := t + d.
Definition After (t u : Time) : bool := u <? t.
End time.

(** [strings.ToLower] on a string all of whose bytes are below 0x80: there
    the library moves the letters A to Z to a to z and keeps every other byte,
    which is what [ToLower] does.  On a string with a byte from 0x80 on the
    library decodes UTF-8, lowercases every Unicode letter and writes U+FFFD
    for an invalid byte; that path needs the Unicode tables and is not part of
    this development, so on such strings [ToLower] is not the library's
    function.  No general statement below depends on what [ToLower]
    returns: each one about keys holds, with the same proof, for every
    function from strings to strings in its place.  Only the examples, on
    ASCII names, evaluate it. *)
Definition lower_byte (c : ascii) : ascii :=
  let n := N_of_ascii c in
  if ((65 <=? n) && (n <=? 90))%N then ascii_of_N (n + 32) else c.

Fixpoint ToLower (s : string) : string :=
  match s with
  | EmptyString => EmptyString
  | String c s' => String (lower_byte c) (ToLower s')
  end.

(** The verb [%d] of [fmt.Sprintf] on an unsigned integer. *)
Definition fmt_d (n : N) : string := NilZero.string_of_uint (N.to_uint n).

(** Modelled from the spec: [RemoveLastDot], the name normalizer, is not among
    the source files.  The spec describes it as "a pure function stripping a
    single trailing "." from a domain name". *)
Fixpoint RemoveLastDot (name : string) : string :=
  match name with
  | EmptyString => EmptyString
  | String c EmptyString => if Ascii.eqb c "." then EmptyString else name
  | String c rest => String c (RemoveLastDot rest)
  end.

(** ** xchg.go *)

Definition RcodeNoResponse : Z := 50.

(** [QueryTimeout] is a package variable initialised to [time.Second]; the
    sweep reads it when it runs, so [removeExpired] takes its current value. *)
Definition QueryTimeout_default : time.Duration := time.Second.

(** [request].  A [*request] is modelled by the record it points to (the
    table never holds a nil pointer: [add] dereferences [req] before it stores
    it); the context, the message and the channel are handles. *)
Record request := {
  Ctx : nat;
  ID : N;
  Timestamp : time.Time;
  Name : string;
  Qtype : N;
  Msg : nat;
  Result : nat
}.

#[global] Instance request_eq_dec : EqDecision request.
Proof. solve_decision. Defined.

Definition xchgKey (id : N) (name : string) : string :=
  (fmt_d id ++ ":" ++ ToLower (RemoveLastDot name))%string.

Module xchgMgr.

Record t := { mu : bool; xchgs : gmap string request }.

#[global] Instance mutex : Mutex t :=
  {| held := mu; set_held b r := {| mu := b; xchgs := xchgs r |} |}.

Definition set_xchgs (f : gmap string request -> gmap string request) : M t unit :=
  modify (fun r => {| mu := mu r; xchgs := f (xchgs r) |}).

(** The loop of [delete]: [removed] is the slice built so far.  A missing key
    appends nil.  [r.xchgs[k] = nil] followed by [delete(r.xchgs, k)] leaves
    the map without [k]. *)
Fixpoint delete_loop (keys : list string) (removed : list (option request))
  : M t (list (option request)) :=
  match keys with
  | [] => ret removed
  | k :: keys' =>
      m <- gets xchgs ;;
      let removed := removed ++ [m !! k] in
      set_xchgs (base.delete k) ;;;
      delete_loop keys' removed
  end.

Definition delete (keys : list string) : M t (list (option request)) :=
  delete_loop keys [].

Definition add (req : request) : M t (option string) :=
  critical (
    let key := xchgKey (ID req) (Name req) in
    m <- gets xchgs ;;
    match m !! key with
    | Some _ => ret (Some ("key " ++ key ++ " is already in use")%string)
    | None => set_xchgs (insert key req) ;;; ret None
    end).

Definition updateTimestamp (now : time.Time) (id : N) (name : string) : M t unit :=
  critical (
    let key := xchgKey id name in
    m <- gets xchgs ;;
    match m !! key with
    | None => ret tt
    | Some req =>
        set_xchgs (insert key
          {| Ctx := Ctx req; ID := ID req; Timestamp := now; Name := Name req;
             Qtype := Qtype req; Msg := Msg req; Result := Result req |})
    end).

Definition remove (id : N) (name : string) : M t (option request) :=
  critical (
    let key := xchgKey id name in
    m <- gets xchgs ;;
    match m !! key with
    | Some _ =>
        removed <- delete [key] ;;
        match removed with
        | x :: _ => ret x
        | [] => panic "index out of range [0] with length 0"
        end
    | None => ret None
    end).

Section Range.
(** [for key, req := range r.xchgs] visits every entry once, in an order
    the language leaves open: [range] is the order of one traversal. *)
Variable range : gmap string request -> list (string * request).

Definition expired (QueryTimeout : time.Duration) (now : time.Time)
    (req : request) : bool :=
  negb (time.IsZero (Timestamp req))
  && time.After now (time.Add (Timestamp req) QueryTimeout).

Definition removeExpired (QueryTimeout : time.Duration) (now : time.Time)
  : M t (list (option request)) :=
  critical (
    m <- gets xchgs ;;
    let keys :=
      fold_left (fun keys kv =>
                   if expired QueryTimeout now (snd kv)
                   then keys ++ [fst kv] else keys)
                (range m) [] in
    delete keys).

Definition removeAll : M t (list (option request)) :=
  critical (
    m <- gets xchgs ;;
    let keys := fold_left (fun keys kv => keys ++ [fst kv]) (range m) [] in
    delete keys).
End Range.

End xchgMgr.

Definition newXchgMgr : xchgMgr.t := {| xchgMgr.mu := false; xchgMgr.xchgs := ∅ |}.

(** ** The connection pool *)

Definition headerSize : Z := 12.

(** Go's [int] on the 64-bit platforms: the result of an addition wraps. *)
Definition int_wrap (z : Z) : Z := (z + 2 ^ 63) mod 2 ^ 64 - 2 ^ 63.

(** The verb [%d] on a signed integer. *)
Definition fmt_int (z : Z) : string :=
  if z <? 0 then ("-" ++ fmt_d (Z.to_N (- z)))%string else fmt_d (Z.to_N z).

(** A [net.PacketConn] is the socket it wraps and a [chan struct{}] is the
    channel it denotes; both are numbered. *)
Definition PacketConn := nat.
Definition chan := nat.

Module connection.
Record t := { conn : PacketConn; done : chan }.
End connection.

(** The goroutines the pool starts.  They are recorded, not run: what the
    properties below speak about happens on the caller's side of the lock. *)
Inductive goroutine :=
| go_rotations
| go_responses (c : connection.t)
| go_delayed_close (c : connection.t).

Module connections.

(** The struct.  [conns] is [None] for the nil slice, which [Close] and
    [Next] tell apart from an empty one. *)
Record t := {
  mu : bool;
  done : chan;
  conns : option (list connection.t);
  resps : nat;
  nextWrite : Z;
  cpus : Z
}.

(** The struct in its process: which channels are closed, the next channel
    [make] returns, the goroutines started, and the operating system, which
    answers the [k]-th request for a socket ([laddr] is the socket whose
    local address is asked for again, [None] for ":0"). *)
Record process := {
  pool : t;
  closed : list chan;
  chans : nat;
  spawned : list goroutine;
  linux : bool;
  listens : nat;
  ListenPacket : nat -> option PacketConn -> PacketConn + string
}.

Definition with_pool (f : t -> t) (p : process) : process :=
  {| pool := f (pool p); closed := closed p; chans := chans p;
     spawned := spawned p; linux := linux p; listens := listens p;
     ListenPacket := ListenPacket p |}.

Definition set_mu (b : bool) (r : t) : t :=
  {| mu := b; done := done r; conns := conns r; resps := resps r;
     nextWrite := nextWrite r; cpus := cpus r |}.

Definition set_conns (cs : option (list connection.t)) (r : t) : t :=
  {| mu := mu r; done := done r; conns := cs; resps := resps r;
     nextWrite := nextWrite r; cpus := cpus r |}.

Definition set_nextWrite (n : Z) (r : t) : t :=
  {| mu := mu r; done := done r; conns := conns r; resps := resps r;
     nextWrite := n; cpus := cpus r |}.

#[global] Instance mutex : Mutex process :=
  {| held p := mu (pool p); set_held b := with_pool (set_mu b) |}.

(** [len] of the slice: 0 for nil. *)
Definition len (cs : option (list connection.t)) : Z :=
  Z.of_nat (length (default [] cs)).

(** [make(chan struct{})]. *)
Definition make_chan : M process chan :=
  fun p => Ret (chans p)
    {| pool := pool p; closed := closed p; chans := S (chans p);
       spawned := spawned p; linux := linux p; listens := listens p;
       ListenPacket := ListenPacket p |}.

(** [close(ch)]: closing a closed channel panics. *)
Definition close (ch : chan) : M process unit :=
  fun p => if bool_decide (ch ∈ closed p)
           then Panic "close of closed channel"
           else Ret tt
             {| pool := pool p; closed := ch :: closed p; chans := chans p;
                spawned := spawned p; linux := linux p; listens := listens p;
                ListenPacket := ListenPacket p |}.

(** [go f(...)]. *)
Definition go (g : goroutine) : M process unit :=
  modify (fun p =>
    {| pool := pool p; closed := closed p; chans := chans p;
       spawned := spawned p ++ [g]; linux := linux p; listens := listens p;
       ListenPacket := ListenPacket p |}).

(** One request to the operating system for a socket. *)
Definition listen_packet (laddr : option PacketConn) : M process (PacketConn + string) :=
  fun p => Ret (ListenPacket p (listens p) laddr)
    {| pool := pool p; closed := closed p; chans := chans p;
       spawned := spawned p; linux := linux p; listens := S (listens p);
       ListenPacket := ListenPacket p |}.

Fixpoint for_each {A} (l : list A) (body : A -> M process unit) : M process unit :=
  match l with
  | [] => ret tt
  | x :: l' => body x ;;; for_each l' body
  end.

Definition linuxListenPacket : M process (PacketConn + string) :=
  cs <- gets (fun p => conns (pool p)) ;;
  let laddr :=
    match default [] cs with
    | c :: _ => Some (connection.conn c)
    | [] => None
    end in
  listen_packet laddr.

Definition Add : M process (option string) :=
  on_linux <- gets linux ;;
  res <- (if on_linux then linuxListenPacket else listen_packet None) ;;
  match res with
  | inl conn =>
      d <- make_chan ;;
      let c := {| connection.conn := conn; connection.done := d |} in
      modify (with_pool (fun r => set_conns (Some (default [] (conns r) ++ [c])) r)) ;;;
      go (go_responses c) ;;;
      ret None
  | inr err => ret (Some err)
  end.

Definition Close : M process unit :=
  critical (
    cs <- gets (fun p => conns (pool p)) ;;
    match cs with
    | Some cs =>
        d <- gets (fun p => done (pool p)) ;;
        close d ;;;
        for_each cs (fun c => close (connection.done c)) ;;;
        modify (with_pool (set_conns None))
    | None => ret tt
    end).

(** [for i := 0; i < r.cpus; i++ { _ = r.Add() }]. *)
Fixpoint rotate_loop (n : nat) : M process unit :=
  match n with
  | O => ret tt
  | S n' => _ <- Add ;; rotate_loop n'
  end.

Definition rotate : M process unit :=
  critical (
    cs <- gets (fun p => conns (pool p)) ;;
    for_each (default [] cs) (fun c => go (go_delayed_close c)) ;;;
    modify (with_pool (set_conns (Some []))) ;;;
    n <- gets (fun p => cpus (pool p)) ;;
    rotate_loop (Z.to_nat n)).

(** [r.conns[cur]]. *)
Definition index (cs : list connection.t) (cur : Z) : M process connection.t :=
  match (if cur <? 0 then None else cs !! Z.to_nat cur) with
  | Some c => ret c
  | None => panic "index out of range"
  end.

Definition Next : M process (option PacketConn) :=
  critical (
    cs <- gets (fun p => conns (pool p)) ;;
    match cs with
    | None => ret None
    | Some cs =>
        if len (Some cs) =? 0 then ret None
        else
          cur <- gets (fun p => nextWrite (pool p)) ;;
          modify (with_pool (set_nextWrite
                    (Z.rem (int_wrap (cur + 1)) (len (Some cs))))) ;;;
          c <- index cs cur ;;
          ret (Some (connection.conn c))
    end).

(** [msg.Pack()] and [conn.WriteTo(out, addr)] are the caller's message and
    the network: [packed] is what packing [msg] gives, [WriteTo] what
    writing to [addr] on a socket gives. *)
Definition WriteMsg (packed : list Byte.byte + string)
    (WriteTo : PacketConn -> list Byte.byte -> Z * option string)
  : M process (option string) :=
  match packed with
  | inr err => ret (Some err)
  | inl out =>
      conn <- Next ;;
      match conn with
      | None => ret (Some "failed to obtain a connection")
      | Some conn =>
          let '(n, err) := WriteTo conn out in
          match err with
          | None =>
              if n <? Z.of_nat (length out)
              then ret (Some ("only wrote " ++ fmt_int n ++ " bytes of the "
                              ++ fmt_int (Z.of_nat (length out))
                              ++ " byte message")%string)
              else ret None
          | Some e => ret (Some e)
          end
      end
  end.

End connections.

(** What [newConnections] returns: nil, or the pointer to the pool. *)
Inductive pool_ptr := nil_pool | the_pool.

(** The loop of [newConnections]; [true] means the [return nil] was taken. *)
Fixpoint newConnections_loop (n : nat) : M connections.process bool :=
  match n with
  | O => ret false
  | S n' =>
      err <- connections.Add ;;
      match err with
      | Some _ => connections.Close ;;; ret true
      | None => newConnections_loop n'
      end
  end.

Definition newConnections (cpus : Z) (resps : nat) : M connections.process pool_ptr :=
  d <- connections.make_chan ;;
  modify (connections.with_pool (fun _ =>
    {| connections.mu := false; connections.done := d; connections.conns := None;
       connections.resps := resps; connections.nextWrite := 0;
       connections.cpus := cpus |})) ;;;
  critical (
    failed <- newConnections_loop (Z.to_nat cpus) ;;
    if failed : bool then ret nil_pool
    else connections.go go_rotations ;;; ret the_pool).

(** * Definitions the statements use *)

(** ** The exchange table *)

(** The table after the keys [keys] have been deleted one after the other. *)
Definition without (keys : list string) (m : gmap string request) : gmap string request :=
  fold_left (fun m k => base.delete k m) keys m.

(** A record is expired, in the words of the specification: its timestamp is
    not the zero time and the current time is strictly after the timestamp
    plus the query timeout. *)
Definition Expired (QueryTimeout : time.Duration) (now : time.Time) (req : request) : Prop :=
  Timestamp req ≠ 0 ∧ Timestamp req + QueryTimeout < now.

#[global] Instance Expired_dec QueryTimeout now req : Decision (Expired QueryTimeout now req).
Proof. unfold Expired. apply _. Defined.

Definition query (id : N) (name : string) (sent : time.Time) : request :=
  {| Ctx := 0; ID := id; Timestamp := sent; Name := name; Qtype := 1;
     Msg := 0; Result := 0 |}.

(** Two pending queries: one sent at 2s, one not yet stamped. *)
Definition two_pending : xchgMgr.t :=
  {| xchgMgr.mu := false;
     xchgMgr.xchgs :=
       <[xchgKey 7 "example.com" := query 7 "example.com" 2000000000]>
         (<[xchgKey 8 "example.org" := query 8 "example.org" 0]> ∅) |}.

(** ** The connection pool *)

(** The local address [Add] asks for. *)
Definition laddr_of (p : connections.process) : option PacketConn :=
  if connections.linux p
  then match default [] (connections.conns (connections.pool p)) with
       | c :: _ => Some (connection.conn c)
       | [] => None
       end
  else None.

(** The operating system grants the next [n] requests for a socket. *)
Definition grants (p : connections.process) (n : nat) : Prop :=
  ∀ k laddr, (k < n)%nat ->
    ∃ conn, connections.ListenPacket p (connections.listens p + k)%nat laddr = inl conn.

(** What [Add] leaves alone. *)
Record same_frame (p p' : connections.process) : Prop := {
  frame_mu : connections.mu (connections.pool p') = connections.mu (connections.pool p);
  frame_done : connections.done (connections.pool p') = connections.done (connections.pool p);
  frame_nextWrite :
    connections.nextWrite (connections.pool p') = connections.nextWrite (connections.pool p);
  frame_cpus : connections.cpus (connections.pool p') = connections.cpus (connections.pool p);
  frame_closed : connections.closed p' = connections.closed p;
  frame_linux : connections.linux p' = connections.linux p;
  frame_os : connections.ListenPacket p' = connections.ListenPacket p
}.

(** [Next], called [k] times in sequence; the sockets returned, in order. *)
Fixpoint calls_Next (k : nat) : M connections.process (list (option PacketConn)) :=
  match k with
  | O => ret []
  | S k' => x <- connections.Next ;; xs <- calls_Next k' ;; ret (x :: xs)
  end.

(** A pool as [Next] finds it between two calls: the slice [cs], the cursor
    [cur]. *)
Definition pool_at (p : connections.process) (cs : list connection.t) (cur : Z)
  : connections.process :=
  connections.with_pool
    (fun r => connections.set_nextWrite cur (connections.set_conns (Some cs)
                (connections.set_mu false r))) p.

(** The sockets of a slice, as [Next] returns them. *)
Definition sockets (cs : list connection.t) : list (option PacketConn) :=
  (fun c => Some (connection.conn c)) <$> cs.

(** What [k] calls return from the cursor [cur]: the socket at the index
    [(cur + j) mod len] on the call number [j]. *)
Definition served (cs : list connection.t) (cur : Z) (k : nat) : list (option PacketConn) :=
  (fun j : nat => connection.conn <$> cs !! Z.to_nat ((cur + Z.of_nat j) mod Z.of_nat (length cs)))
    <$> seq 0 k.

(** The channels [Close] closes: the pool's, then each socket's. *)
Definition channels (r : connections.t) : list chan :=
  connections.done r :: (connection.done <$> default [] (connections.conns r)).

(** The calls a user of the pool can make, and what they give back. *)
Inductive call :=
| call_Next
| call_WriteMsg (packed : list Byte.byte + string)
                (WriteTo : PacketConn -> list Byte.byte -> Z * option string)
| call_Close.

Inductive reply :=
| reply_conn (c : option PacketConn)
| reply_error (e : option string)
| reply_none.

Definition run_call (c : call) : M connections.process reply :=
  match c with
  | call_Next => (x <- connections.Next ;; ret (reply_conn x))%go
  | call_WriteMsg packed WriteTo =>
      (e <- connections.WriteMsg packed WriteTo ;; ret (reply_error e))%go
  | call_Close => (connections.Close ;;; ret reply_none)%go
  end.

Fixpoint run_calls (cs : list call) : M connections.process (list reply) :=
  match cs with
  | [] => ret []
  | c :: cs' => (r <- run_call c ;; rs <- run_calls cs' ;; ret (r :: rs))%go
  end.

(** The reply of a closed pool: no socket from [Next], an error from
    [WriteMsg]. *)
Definition refused (r : reply) : Prop :=
  match r with
  | reply_conn c => c = None
  | reply_error e => is_Some e
  | reply_none => True
  end.

Definition close_all (chs : list chan) (p : connections.process) : connections.process :=
  {| connections.pool := connections.pool p;
     connections.closed := rev chs ++ connections.closed p;
     connections.chans := connections.chans p;
     connections.spawned := connections.spawned p;
     connections.linux := connections.linux p;
     connections.listens := connections.listens p;
     connections.ListenPacket := connections.ListenPacket p |}.

(** ** Concrete processes *)

(** A process in which no pool has been made yet, on an operating system
    [os]. *)
Definition boot (os : nat -> option PacketConn -> PacketConn + string)
  : connections.process :=
  {| connections.pool :=
       {| connections.mu := false; connections.done := 0%nat;
          connections.conns := None; connections.resps := 0%nat;
          connections.nextWrite := 0; connections.cpus := 0 |};
     connections.closed := []; connections.chans := 0%nat;
     connections.spawned := []; connections.linux := true;
     connections.listens := 0%nat; connections.ListenPacket := os |}.

(** An operating system that grants every request, and one that has [n]
    sockets left to give. *)
Definition generous : nat -> option PacketConn -> PacketConn + string :=
  fun k _ => inl (100 + k)%nat.

Definition sockets_left (n : nat) : nat -> option PacketConn -> PacketConn + string :=
  fun k _ => if (k <? n)%nat then inl (100 + k)%nat
             else inr "socket: too many open files".

(** The process a computation leaves behind. *)
Definition after {A} (m : M connections.process A) (p : connections.process)
  : connections.process :=
  match m p with
  | Ret _ p' => p'
  | _ => p
  end.

(** A pool of four sockets, on a system with two more sockets to give. *)
Definition four_sockets : connections.process :=
  after (newConnections 4 0) (boot (sockets_left 6)).

(** ** More of the exchange table *)

(** Every record is stored under the key that its own ID and name derive. *)
Definition keyed (m : gmap string request) : Prop :=
  ∀ k req, m !! k = Some req -> k = xchgKey (ID req) (Name req).

(** [req] with its timestamp set, as [updateTimestamp] leaves it. *)
Definition stamped (now : time.Time) (req : request) : request :=
  {| Ctx := Ctx req; ID := ID req; Timestamp := now; Name := Name req;
     Qtype := Qtype req; Msg := Msg req; Result := Result req |}.

(** The calls a user of the table can make, and what they give back. *)
Inductive table_call :=
| call_add (req : request)
| call_updateTimestamp (now : time.Time) (id : N) (name : string)
| call_remove (id : N) (name : string)
| call_removeExpired (QueryTimeout : time.Duration) (now : time.Time)
| call_removeAll.

Inductive table_reply :=
| reply_err (e : option string)
| reply_unit
| reply_request (r : option request)
| reply_requests (rs : list (option request)).

Definition run_table_call (range : gmap string request -> list (string * request))
    (c : table_call) : M xchgMgr.t table_reply :=
  match c with
  | call_add req => (e <- xchgMgr.add req ;; ret (reply_err e))%go
  | call_updateTimestamp now id name =>
      (xchgMgr.updateTimestamp now id name ;;; ret reply_unit)%go
  | call_remove id name => (r <- xchgMgr.remove id name ;; ret (reply_request r))%go
  | call_removeExpired QueryTimeout now =>
      (rs <- xchgMgr.removeExpired range QueryTimeout now ;; ret (reply_requests rs))%go
  | call_removeAll => (rs <- xchgMgr.removeAll range ;; ret (reply_requests rs))%go
  end.

Fixpoint run_table_calls (range : gmap string request -> list (string * request))
    (cs : list table_call) : M xchgMgr.t (list table_reply) :=
  match cs with
  | [] => ret []
  | c :: cs' =>
      (r <- run_table_call range c ;; rs <- run_table_calls range cs' ;; ret (r :: rs))%go
  end.

(** ** More of the connection pool *)

(** The channels of the pool are pairwise distinct, allocated and open, and
    only allocated channels are closed. *)
Definition sound_channels (p : connections.process) : Prop :=
  NoDup (channels (connections.pool p))
  ∧ Forall (fun ch => (ch < connections.chans p)%nat ∧ ch ∉ connections.closed p)
           (channels (connections.pool p))
  ∧ Forall (fun ch => (ch < connections.chans p)%nat) (connections.closed p).

(** The operating system never refuses a socket. *)
Definition generous_os (p : connections.process) : Prop :=
  ∀ k laddr, ∃ conn, connections.ListenPacket p k laddr = inl conn.

(** The process at the head of the loop of [rotate]: the mutex held, a
    delayed close started for every socket, the slice empty. *)
Definition rotate_start (p : connections.process) : connections.process :=
  {| connections.pool :=
       connections.set_conns (Some []) (connections.set_mu true (connections.pool p));
     connections.closed := connections.closed p;
     connections.chans := connections.chans p;
     connections.spawned :=
       connections.spawned p
       ++ (go_delayed_close <$> default [] (connections.conns (connections.pool p)));
     connections.linux := connections.linux p;
     connections.listens := connections.listens p;
     connections.ListenPacket := connections.ListenPacket p |}.

(** The process at the head of the loop of [newConnections]: the new struct,
    its mutex held. *)
Definition newConnections_start (cpus : Z) (resps : nat) (p : connections.process)
  : connections.process :=
  {| connections.pool :=
       {| connections.mu := true; connections.done := connections.chans p;
          connections.conns := None; connections.resps := resps;
          connections.nextWrite := 0; connections.cpus := cpus |};
     connections.closed := connections.closed p;
     connections.chans := S (connections.chans p);
     connections.spawned := connections.spawned p;
     connections.linux := connections.linux p;
     connections.listens := connections.listens p;
     connections.ListenPacket := connections.ListenPacket p |}.

(** What happens to an open pool between construction and [Close]: the calls
    of its users and the rotations of its timer. *)
Inductive pool_step :=
| step_Next
| step_WriteMsg (packed : list Byte.byte + string)
                (WriteTo : PacketConn -> list Byte.byte -> Z * option string)
| step_rotate.

Definition run_pool_step (s : pool_step) : M connections.process reply :=
  match s with
  | step_Next => (x <- connections.Next ;; ret (reply_conn x))%go
  | step_WriteMsg packed WriteTo =>
      (e <- connections.WriteMsg packed WriteTo ;; ret (reply_error e))%go
  | step_rotate => (connections.rotate ;;; ret reply_none)%go
  end.

Fixpoint run_pool_steps (ss : list pool_step) : M connections.process (list reply) :=
  match ss with
  | [] => ret []
  | s :: ss' => (r <- run_pool_step s ;; rs <- run_pool_steps ss' ;; ret (r :: rs))%go
  end.

(** [rotate], [n] times in a row. *)
Fixpoint rotations_in_a_row (n : nat) : M connections.process unit :=
  match n with
  | O => ret tt
  | S n' => (connections.rotate ;;; rotations_in_a_row n')%go
  end.

(** A reply that is not a refusal of [Next]: if it is the reply of [Next],
    it is a socket. *)
Definition gives_a_socket (r : reply) : Prop :=
  match r with
  | reply_conn c => is_Some c
  | _ => True
  end.

(** The pool in its steady state on a generous system: free mutex, sound
    channels, as many sockets as processing units, the cursor inside. *)
Definition steady (p : connections.process) : Prop :=
  connections.mu (connections.pool p) = false
  ∧ sound_channels p
  ∧ generous_os p
  ∧ 1 <= connections.cpus (connections.pool p) < 2 ^ 63
  ∧ connections.len (connections.conns (connections.pool p))
    = connections.cpus (connections.pool p)
  ∧ 0 <= connections.nextWrite (connections.pool p)
       < connections.cpus (connections.pool p).

(** A pool of four sockets on a generous system, closed. *)
Definition closed_pool : connections.process :=
  after connections.Close (after (newConnections 4 0) (boot generous)).

(** ** The read loop of a socket *)

(** [dns.DefaultMsgSize], the length of the buffer a read loop reads into. *)
Definition DefaultMsgSize : nat := 4096.

(** [resp], over the type of the decoded message. *)
Record resp (dnsMsg : Type) := { resp_Msg : dnsMsg; resp_Addr : nat }.
Arguments resp_Msg {dnsMsg} r.
Arguments resp_Addr {dnsMsg} r.

(** What one turn of the loop of [responses] meets: the socket's channel
    closed, or what [ReadFrom] returns: [data] is the datagram that arrived, of
    which the buffer takes the first [DefaultMsgSize] bytes, with its source
    address and the error of the read. *)
Inductive turn :=
| turn_done
| turn_read (data : list Byte.byte) (addr : nat) (err : option string).

(** What a read loop works on: the shared queue and its own socket. *)
Record reader (dnsMsg : Type) := { resps_queue : list (resp dnsMsg); conn_closed : bool }.
Arguments resps_queue {dnsMsg} r.
Arguments conn_closed {dnsMsg} r.

(** How the loop stands when the turns are over: it has returned, or it is in
    the next [ReadFrom]. *)
Inductive loop_state := loop_returned | loop_reading.

(** [responses].  [Unpack] is [m.Unpack] on a new message and [Question] is
    [len(m.Question)]. *)
Fixpoint responses {dnsMsg : Type} (Unpack : list Byte.byte -> dnsMsg + string)
    (Question : dnsMsg -> nat) (turns : list turn) : M (reader dnsMsg) loop_state :=
  match turns with
  | [] => ret loop_reading
  | turn_done :: _ =>
      (modify (fun r => {| resps_queue := resps_queue r; conn_closed := true |}) ;;;
       ret loop_returned)%go
  | turn_read data addr err :: turns' =>
      let b := take DefaultMsgSize data in
      let n := Z.of_nat (length b) in
      ((match err with
        | None =>
            if headerSize <=? n then
              match Unpack b with
              | inl m =>
                  if (0 <? Question m)%nat
                  then modify (fun r =>
                         {| resps_queue :=
                              resps_queue r ++ [{| resp_Msg := m; resp_Addr := addr |}];
                            conn_closed := conn_closed r |})
                  else ret tt
              | inr _ => ret tt
              end
            else ret tt
        | Some _ => ret tt
        end) ;;;
       responses Unpack Question turns')%go
  end.

(** A datagram is accepted, in the words of the specification: it was read
    without error, is at least as long as the DNS header, and unpacks into a
    message with at least one question. *)
Definition accepted {dnsMsg : Type} (Unpack : list Byte.byte -> dnsMsg + string)
    (Question : dnsMsg -> nat) (t : turn) : option (resp dnsMsg) :=
  match t with
  | turn_done => None
  | turn_read data addr err =>
      match err, Unpack (take DefaultMsgSize data) with
      | None, inl m =>
          if decide (12 <= length data ∧ 1 <= Question m)%nat
          then Some {| resp_Msg := m; resp_Addr := addr |}
          else None
      | _, _ => None
      end
  end.

Definition is_done (t : turn) : bool :=
  match t with turn_done => true | _ => false end.

(** The turns before the channel is found closed. *)
Fixpoint until_done (turns : list turn) : list turn :=
  match turns with
  | [] => []
  | turn_done :: _ => []
  | t :: turns' => t :: until_done turns'
  end.

(** A decoder for examples: the message is the list of bytes after the
    header, one question per byte; a datagram of 0xff bytes does not unpack. *)
Definition toy_Unpack (b : list Byte.byte) : list Byte.byte + string :=
  match b with
  | Byte.xff :: _ => inr "dns: bad rdata"
  | _ => inl (drop 12 b)
  end.

Definition empty_reader : reader (list Byte.byte) :=
  {| resps_queue := []; conn_closed := false |}.

(** * Properties *)

(** ** Running a critical section *)

Lemma critical_run {S A} `{Mutex S} (body : M S A) (s s' : S) (a : A) :
  held s = false ->
  body (set_held true s) = Ret a s' ->
  held s' = true ->
  critical body s = Ret a (set_held false s').
Proof.
  intros Hfree Hbody Hheld. unfold critical, bind, Lock, Unlock, ret.
  by rewrite Hfree, Hbody, Hheld.
Qed.

Lemma critical_blocked {S A} `{Mutex S} (body : M S A) (s : S) :
  held s = true -> critical body s = Blocked.
Proof. intros Hheld. unfold critical, bind, Lock. by rewrite Hheld. Qed.

(** ** The exchange table: [delete] and the sweeps *)

Lemma lookup_without keys (m : gmap string request) j :
  without keys m !! j = if decide (j ∈ keys) then None else m !! j.
Proof.
  revert m. induction keys as [|k keys IH]; intros m.
  - change (without [] m) with m.
    destruct (decide (j ∈ @nil string)) as [Hin|_]; [set_solver | done].
  - change (without (k :: keys) m) with (without keys (base.delete k m)).
    rewrite IH. destruct (decide (j = k)) as [->|Hne].
    + rewrite lookup_delete_eq.
      destruct (decide (k ∈ k :: keys)) as [_|Hk]; [|by destruct Hk; left].
      by destruct (decide (k ∈ keys)).
    + rewrite lookup_delete_ne by done.
      destruct (decide (j ∈ keys)) as [Hj|Hj], (decide (j ∈ k :: keys)) as [Hj'|Hj'];
        try done.
      * destruct Hj'. by right.
      * apply elem_of_cons in Hj' as [?|?]; done.
Qed.

Lemma delete_loop_run b keys : forall removed m,
  NoDup keys ->
  xchgMgr.delete_loop keys removed {| xchgMgr.mu := b; xchgMgr.xchgs := m |}
  = Ret (removed ++ ((fun k => m !! k) <$> keys))
        {| xchgMgr.mu := b; xchgMgr.xchgs := without keys m |}.
Proof.
  induction keys as [|k keys IH]; intros removed m Hnd.
  - simpl. unfold ret. by rewrite app_nil_r.
  - apply NoDup_cons in Hnd as [Hk Hnd]. cbn [xchgMgr.delete_loop].
    unfold bind at 1. unfold gets. unfold bind at 1.
    unfold xchgMgr.set_xchgs, modify. cbn [xchgMgr.xchgs xchgMgr.mu].
    rewrite IH by done. rewrite <- app_assoc. cbn [app fmap list_fmap].
    do 3 f_equal. apply Forall_fmap_ext_1, Forall_forall.
    intros k' Hk'. apply lookup_delete_ne. by intros ->.
Qed.

Lemma delete_run b keys m :
  NoDup keys ->
  xchgMgr.delete keys {| xchgMgr.mu := b; xchgMgr.xchgs := m |}
  = Ret ((fun k => m !! k) <$> keys)
        {| xchgMgr.mu := b; xchgMgr.xchgs := without keys m |}.
Proof. intros Hnd. unfold xchgMgr.delete. by rewrite delete_loop_run. Qed.

(** The keys a traversal collects under a test on the record. *)
Lemma collect_keys (test : request -> bool) (l : list (string * request)) : forall acc,
  fold_left (fun keys kv => if test (snd kv) then keys ++ [fst kv] else keys) l acc
  = acc ++ (filter (fun kv => test (snd kv) = true) l).*1.
Proof.
  induction l as [|[k v] l IH]; intros acc; simpl.
  - by rewrite app_nil_r.
  - rewrite filter_cons. simpl. destruct (test v) eqn:Ht; rewrite IH.
    + rewrite decide_True by done. by rewrite <- app_assoc.
    + by rewrite decide_False by done.
Qed.

Lemma expired_Expired QueryTimeout now req :
  xchgMgr.expired QueryTimeout now req = true ↔ Expired QueryTimeout now req.
Proof.
  unfold xchgMgr.expired, Expired, time.IsZero, time.After, time.Add.
  rewrite andb_true_iff, negb_true_iff, Z.eqb_neq, Z.ltb_lt. done.
Qed.

Lemma map_to_list_filter (P : string * request -> Prop) `{!∀ x, Decision (P x)}
    (m : gmap string request) :
  filter P (map_to_list m) ≡ₚ map_to_list (filter P m).
Proof.
  apply NoDup_Permutation.
  - apply NoDup_filter, NoDup_map_to_list.
  - apply NoDup_map_to_list.
  - intros [k v]. rewrite list_elem_of_filter, !elem_of_map_to_list.
    rewrite map_lookup_filter_Some. tauto.
Qed.

Lemma filter_all {A} (l : list A) : filter (fun _ => True) l = l.
Proof. induction l as [|x l IH]; [done|]. rewrite filter_cons_True by done. by f_equal. Qed.

Section Sweeps.
Variable range : gmap string request -> list (string * request).
Hypothesis range_visits_all : forall m, range m ≡ₚ map_to_list m.

Lemma elem_of_range m k v : (k, v) ∈ range m ↔ m !! k = Some v.
Proof. by rewrite range_visits_all, elem_of_map_to_list. Qed.

Lemma NoDup_range_keys (P : string * request -> Prop) `{!∀ x, Decision (P x)} m :
  NoDup (filter P (range m)).*1.
Proof.
  apply (sublist_NoDup _ (range m).*1).
  - rewrite range_visits_all. apply NoDup_fst_map_to_list.
  - apply fmap_sublist, sublist_filter.
Qed.

Lemma range_values (P : string * request -> Prop) `{!∀ x, Decision (P x)} m :
  (fun k => m !! k) <$> (filter P (range m)).*1
  = (fun kv => Some kv.2) <$> filter P (range m).
Proof.
  rewrite <- list_fmap_compose. apply Forall_fmap_ext_1, Forall_forall.
  intros [k v] Hkv. apply list_elem_of_filter in Hkv as [_ Hkv].
  by apply elem_of_range in Hkv.
Qed.

Lemma without_range_keys (P : string * request -> Prop) `{!∀ x, Decision (P x)} m :
  without (filter P (range m)).*1 m = filter (fun kv => ¬ P kv) m.
Proof.
  apply map_eq. intros j. rewrite lookup_without.
  destruct (decide (j ∈ (filter P (range m)).*1)) as [Hj|Hj].
  - symmetry. apply map_lookup_filter_None. right. intros v Hv HP.
    apply list_elem_of_fmap in Hj as [[k' v'] [-> Hj]].
    apply list_elem_of_filter in Hj as [HP' Hj].
    apply elem_of_range in Hj. simpl in *. by simplify_eq.
  - destruct (m !! j) as [v|] eqn:Hv.
    + symmetry. apply map_lookup_filter_Some. split; [done|]. intros HP.
      apply Hj. apply list_elem_of_fmap. exists (j, v). split; [done|].
      apply list_elem_of_filter. split; [done|]. by apply elem_of_range.
    + symmetry. apply map_lookup_filter_None. by left.
Qed.

Lemma removeExpired_run QueryTimeout now r :
  xchgMgr.mu r = false ->
  xchgMgr.removeExpired range QueryTimeout now r
  = Ret ((fun kv => Some kv.2)
           <$> filter (fun kv => Expired QueryTimeout now kv.2) (range (xchgMgr.xchgs r)))
        {| xchgMgr.mu := false;
           xchgMgr.xchgs :=
             filter (fun kv => ¬ Expired QueryTimeout now kv.2) (xchgMgr.xchgs r) |}.
Proof.
  destruct r as [b m]. simpl. intros ->.
  unfold xchgMgr.removeExpired.
  rewrite (critical_run _ _
    {| xchgMgr.mu := true;
       xchgMgr.xchgs := filter (fun kv => ¬ Expired QueryTimeout now kv.2) m |}
    ((fun kv => Some kv.2)
       <$> filter (fun kv => Expired QueryTimeout now kv.2) (range m)));
    [done|done| |done].
  unfold bind, gets. simpl. rewrite collect_keys. simpl.
  assert (Hf : filter (fun kv : string * request =>
                         xchgMgr.expired QueryTimeout now kv.2 = true) (range m)
               = filter (fun kv => Expired QueryTimeout now kv.2) (range m)).
  { apply list_filter_iff. intros kv. apply expired_Expired. }
  rewrite Hf. rewrite delete_run by apply NoDup_range_keys.
  by rewrite range_values, without_range_keys.
Qed.

Lemma all_keys (l : list (string * request)) : forall acc,
  fold_left (fun keys kv => keys ++ [fst kv]) l acc = acc ++ l.*1.
Proof.
  induction l as [|kv l IH]; intros acc; simpl.
  - by rewrite app_nil_r.
  - rewrite IH. by rewrite <- app_assoc.
Qed.

Lemma removeAll_run r :
  xchgMgr.mu r = false ->
  xchgMgr.removeAll range r
  = Ret ((fun kv => Some kv.2) <$> range (xchgMgr.xchgs r))
        {| xchgMgr.mu := false; xchgMgr.xchgs := ∅ |}.
Proof.
  destruct r as [b m]. simpl. intros ->.
  unfold xchgMgr.removeAll.
  rewrite (critical_run _ _ {| xchgMgr.mu := true; xchgMgr.xchgs := ∅ |}
             ((fun kv => Some kv.2) <$> range m)); [done|done| |done].
  unfold bind, gets. simpl. rewrite all_keys. simpl.
  pose proof (NoDup_range_keys (fun _ => True) m) as Hnd.
  pose proof (range_values (fun _ => True) m) as Hval.
  pose proof (without_range_keys (fun _ => True) m) as Hwo.
  rewrite (filter_all (range m)) in Hnd, Hval, Hwo.
  rewrite delete_run, Hval, Hwo by done. do 2 f_equal.
  apply map_empty. intros j. apply map_lookup_filter_None. right. tauto.
Qed.

(** C1. [removeExpired] returns, each once, exactly the records that are
    expired (timestamp not zero, and now strictly after timestamp plus
    [QueryTimeout]) and deletes exactly those from the table.  Hence a record
    with a zero timestamp is never returned, and a returned record is not in
    the table afterwards. *)
Theorem removeExpired_returns_exactly_the_expired QueryTimeout now r :
  xchgMgr.mu r = false ->
  ∃ removed r',
    xchgMgr.removeExpired range QueryTimeout now r = Ret removed r'
    ∧ xchgMgr.mu r' = false
    ∧ removed ≡ₚ (fun kv => Some kv.2)
         <$> map_to_list (filter (fun kv => Expired QueryTimeout now kv.2)
                                 (xchgMgr.xchgs r))
    ∧ xchgMgr.xchgs r'
      = filter (fun kv => ¬ Expired QueryTimeout now kv.2) (xchgMgr.xchgs r)
    ∧ (∀ req, Some req ∈ removed ↔
         ∃ k, xchgMgr.xchgs r !! k = Some req
              ∧ Timestamp req ≠ 0 ∧ Timestamp req + QueryTimeout < now)
    ∧ (∀ req, Timestamp req = 0 -> Some req ∉ removed)
    ∧ (∀ req k, Some req ∈ removed -> xchgMgr.xchgs r' !! k ≠ Some req).
Proof.
  intros Hfree. eexists _, _. split; [by apply removeExpired_run|]. simpl.
  set (P := fun kv : string * request => Expired QueryTimeout now kv.2).
  assert (Hmem : ∀ req, Some req ∈ (fun kv : string * request => Some kv.2)
                          <$> filter P (range (xchgMgr.xchgs r))
                 ↔ ∃ k, xchgMgr.xchgs r !! k = Some req ∧ Expired QueryTimeout now req).
  { intros req. rewrite list_elem_of_fmap. split.
    - intros [[k v] [Heq Hin]]. simpl in Heq. simplify_eq.
      apply list_elem_of_filter in Hin as [HP Hin].
      apply elem_of_range in Hin. by exists k.
    - intros [k [Hk HP]]. exists (k, req). split; [done|].
      apply list_elem_of_filter. split; [done|]. by apply elem_of_range. }
  split_and!; [done| |done|done| |].
  - by rewrite range_visits_all, map_to_list_filter.
  - intros req Hz Hin. apply Hmem in Hin as [k [_ [Hnz _]]]. done.
  - intros req k Hin Hk. apply Hmem in Hin as [_ [_ HP]].
    apply map_lookup_filter_Some in Hk as [_ Hk]. by apply Hk.
Qed.

(** C9. [removeAll] on a table holding K records returns exactly those K
    records and leaves the table empty, whatever their timestamps are. *)
Theorem removeAll_returns_everything r :
  xchgMgr.mu r = false ->
  ∃ removed r',
    xchgMgr.removeAll range r = Ret removed r'
    ∧ removed ≡ₚ (fun kv => Some kv.2) <$> map_to_list (xchgMgr.xchgs r)
    ∧ length removed = size (xchgMgr.xchgs r)
    ∧ (∀ req, Some req ∈ removed ↔ ∃ k, xchgMgr.xchgs r !! k = Some req)
    ∧ xchgMgr.xchgs r' = ∅
    ∧ xchgMgr.mu r' = false.
Proof.
  intros Hfree. eexists _, _. split; [by apply removeAll_run|]. simpl.
  split_and!; [| | |done|done].
  - by rewrite range_visits_all.
  - by rewrite length_fmap, range_visits_all, length_map_to_list.
  - intros req. rewrite list_elem_of_fmap. split.
    + intros [[k v] [Heq Hin]]. simpl in Heq. simplify_eq.
      apply elem_of_range in Hin. by exists k.
    + intros [k Hk]. exists (k, req). split; [done|]. by apply elem_of_range.
Qed.
End Sweeps.

(** ** The exchange table: [add] and [remove] *)

Lemma add_run_fresh req r :
  xchgMgr.mu r = false ->
  xchgMgr.xchgs r !! xchgKey (ID req) (Name req) = None ->
  xchgMgr.add req r
  = Ret None {| xchgMgr.mu := false;
                xchgMgr.xchgs := <[xchgKey (ID req) (Name req) := req]> (xchgMgr.xchgs r) |}.
Proof.
  destruct r as [b m]. simpl. intros -> Hnone. unfold xchgMgr.add.
  rewrite (critical_run _ _
    {| xchgMgr.mu := true;
       xchgMgr.xchgs := <[xchgKey (ID req) (Name req) := req]> m |} None);
    [done|done| |done].
  unfold bind, gets. simpl. by rewrite Hnone.
Qed.

Lemma add_run_taken req r :
  xchgMgr.mu r = false ->
  is_Some (xchgMgr.xchgs r !! xchgKey (ID req) (Name req)) ->
  xchgMgr.add req r
  = Ret (Some ("key " ++ xchgKey (ID req) (Name req) ++ " is already in use")%string) r.
Proof.
  destruct r as [b m]. simpl. intros -> [old Hold]. unfold xchgMgr.add.
  rewrite (critical_run _ _ {| xchgMgr.mu := true; xchgMgr.xchgs := m |}
    (Some ("key " ++ xchgKey (ID req) (Name req) ++ " is already in use")%string));
    [done|done| |done].
  unfold bind, gets. simpl. by rewrite Hold.
Qed.

Lemma remove_run_found id name req r :
  xchgMgr.mu r = false ->
  xchgMgr.xchgs r !! xchgKey id name = Some req ->
  xchgMgr.remove id name r
  = Ret (Some req) {| xchgMgr.mu := false;
                      xchgMgr.xchgs := base.delete (xchgKey id name) (xchgMgr.xchgs r) |}.
Proof.
  destruct r as [b m]. simpl. intros -> Hsome. unfold xchgMgr.remove.
  rewrite (critical_run _ _
    {| xchgMgr.mu := true; xchgMgr.xchgs := base.delete (xchgKey id name) m |}
    (Some req)); [done|done| |done].
  unfold bind at 1. unfold gets. simpl. rewrite Hsome.
  unfold bind. rewrite delete_run by (apply NoDup_singleton). simpl.
  by rewrite Hsome.
Qed.

Lemma remove_run_absent id name r :
  xchgMgr.mu r = false ->
  xchgMgr.xchgs r !! xchgKey id name = None ->
  xchgMgr.remove id name r = Ret None r.
Proof.
  destruct r as [b m]. simpl. intros -> Hnone. unfold xchgMgr.remove.
  rewrite (critical_run _ _ {| xchgMgr.mu := true; xchgMgr.xchgs := m |} None);
    [done|done| |done].
  unfold bind, gets. simpl. by rewrite Hnone.
Qed.

(** C2. [add] succeeds when the derived key is free; a second [add] whose
    (ID, name) derives the same key fails with "key ... is already in use" and
    leaves the table as it was, the first record still under the key. *)
Theorem add_rejects_a_key_in_use r req req' :
  xchgMgr.mu r = false ->
  xchgMgr.xchgs r !! xchgKey (ID req) (Name req) = None ->
  xchgKey (ID req') (Name req') = xchgKey (ID req) (Name req) ->
  ∃ r1,
    xchgMgr.add req r = Ret None r1
    ∧ xchgMgr.xchgs r1 = <[xchgKey (ID req) (Name req) := req]> (xchgMgr.xchgs r)
    ∧ xchgMgr.add req' r1
      = Ret (Some ("key " ++ xchgKey (ID req) (Name req) ++ " is already in use")%string) r1
    ∧ xchgMgr.xchgs r1 !! xchgKey (ID req) (Name req) = Some req.
Proof.
  intros Hfree Hnone Hkey. eexists. split; [by apply add_run_fresh|]. simpl.
  split_and!; [done| |by rewrite lookup_insert_eq].
  rewrite <- Hkey. apply add_run_taken; [done|]. simpl.
  rewrite Hkey, lookup_insert_eq. by eexists.
Qed.

(** C3. [remove] with the key of a stored record deletes the record and
    returns it; a second [remove] with the key returns nil; so does [remove]
    with a key under which nothing is stored.  A record that [add] has just
    inserted is returned by [remove] with its (ID, name). *)
Theorem remove_returns_the_record_once r :
  xchgMgr.mu r = false ->
  (∀ id name req,
     xchgMgr.xchgs r !! xchgKey id name = Some req ->
     ∃ r',
       xchgMgr.remove id name r = Ret (Some req) r'
       ∧ xchgMgr.xchgs r' = base.delete (xchgKey id name) (xchgMgr.xchgs r)
       ∧ xchgMgr.remove id name r' = Ret None r')
  ∧ (∀ id name,
       xchgMgr.xchgs r !! xchgKey id name = None ->
       xchgMgr.remove id name r = Ret None r)
  ∧ (∀ req,
       xchgMgr.xchgs r !! xchgKey (ID req) (Name req) = None ->
       ∃ r1 r2,
         xchgMgr.add req r = Ret None r1
         ∧ xchgMgr.remove (ID req) (Name req) r1 = Ret (Some req) r2
         ∧ xchgMgr.xchgs r2 = xchgMgr.xchgs r
         ∧ xchgMgr.remove (ID req) (Name req) r2 = Ret None r2).
Proof.
  intros Hfree. split_and!.
  - intros id name req Hsome. eexists. split; [by apply remove_run_found|]. simpl.
    split; [done|]. apply remove_run_absent; [done|]. simpl. apply lookup_delete_eq.
  - intros id name Hnone. by apply remove_run_absent.
  - intros req Hnone. eexists _, _. split; [by apply add_run_fresh|].
    split; [apply remove_run_found; [done|]; simpl; apply lookup_insert_eq|]. simpl.
    rewrite delete_insert_eq, delete_id by done. split; [done|].
    apply remove_run_absent; [done|]. by simpl.
Qed.

(** ** The correlation key *)

(** C8. The key is built from the name with one trailing dot stripped and
    then lowercased.  Two names that are equal in that form derive the same
    key with every transaction ID; hence a record that [add] stored under
    (ID, name) is found and returned by [remove] under (ID, name'), which
    leaves the table as it was before the [add].  The proof does not look
    inside [ToLower]. *)
Theorem xchgKey_ignores_case_and_trailing_dot r req name' :
  xchgMgr.mu r = false ->
  xchgMgr.xchgs r !! xchgKey (ID req) (Name req) = None ->
  ToLower (RemoveLastDot (Name req)) = ToLower (RemoveLastDot name') ->
  (∀ id, xchgKey id (Name req) = xchgKey id name')
  ∧ ∃ r1 r2,
      xchgMgr.add req r = Ret None r1
      ∧ xchgMgr.remove (ID req) name' r1 = Ret (Some req) r2
      ∧ xchgMgr.xchgs r2 = xchgMgr.xchgs r.
Proof.
  intros Hfree Hnone Hnorm.
  assert (Hkey : ∀ id, xchgKey id (Name req) = xchgKey id name').
  { intros id. unfold xchgKey. by rewrite Hnorm. }
  split; [done|]. eexists _, _. split; [by apply add_run_fresh|].
  split.
  - apply remove_run_found; [done|]. simpl. rewrite <- Hkey. apply lookup_insert_eq.
  - simpl. rewrite <- Hkey. by rewrite delete_insert_eq, delete_id.
Qed.

(** ** The table theorems at concrete tables *)

Lemma removeExpired_witness :
  xchgMgr.mu two_pending = false
  ∧ ∃ removed r',
      xchgMgr.removeExpired map_to_list time.Second 3000000001 two_pending
      = Ret removed r'
      ∧ (∀ req, Timestamp req = 0 -> Some req ∉ removed)
      ∧ (∀ req k, Some req ∈ removed -> xchgMgr.xchgs r' !! k ≠ Some req).
Proof.
  split; [reflexivity|].
  destruct (removeExpired_returns_exactly_the_expired map_to_list
              (fun m => reflexivity (map_to_list m))
              time.Second 3000000001 two_pending eq_refl)
    as (removed & r' & Hrun & _ & _ & _ & _ & Hzero & Hgone).
  exists removed, r'. split_and!; assumption.
Defined.

Lemma removeAll_witness :
  xchgMgr.mu two_pending = false
  ∧ ∃ removed r',
      xchgMgr.removeAll map_to_list two_pending = Ret removed r'
      ∧ length removed = size (xchgMgr.xchgs two_pending)
      ∧ xchgMgr.xchgs r' = ∅.
Proof.
  split; [reflexivity|].
  destruct (removeAll_returns_everything map_to_list
              (fun m => reflexivity (map_to_list m)) two_pending eq_refl)
    as (removed & r' & Hrun & _ & Hlen & _ & Hempty & _).
  exists removed, r'. split_and!; assumption.
Defined.

Lemma add_witness :
  xchgMgr.mu newXchgMgr = false
  ∧ xchgMgr.xchgs newXchgMgr !! xchgKey 7 "Example.COM." = None
  ∧ xchgKey 7 "example.com" = xchgKey 7 "Example.COM."
  ∧ ∃ r1,
      xchgMgr.add (query 7 "Example.COM." 0) newXchgMgr = Ret None r1
      ∧ xchgMgr.add (query 7 "example.com" 5) r1
        = Ret (Some "key 7:example.com is already in use") r1
      ∧ xchgMgr.xchgs r1 !! "7:example.com" = Some (query 7 "Example.COM." 0).
Proof.
  split_and!; [reflexivity|reflexivity|reflexivity|].
  destruct (add_rejects_a_key_in_use newXchgMgr
              (query 7 "Example.COM." 0) (query 7 "example.com" 5)
              eq_refl eq_refl eq_refl)
    as (r1 & Hadd & _ & Hagain & Hstill).
  exists r1. split_and!; assumption.
Defined.

Lemma remove_witness :
  xchgMgr.mu newXchgMgr = false
  ∧ ∃ r1 r2,
      xchgMgr.add (query 7 "example.com" 0) newXchgMgr = Ret None r1
      ∧ xchgMgr.remove 7 "example.com" r1 = Ret (Some (query 7 "example.com" 0)) r2
      ∧ xchgMgr.remove 7 "example.com" r2 = Ret None r2.
Proof.
  split; [reflexivity|].
  destruct (remove_returns_the_record_once newXchgMgr eq_refl) as (_ & _ & Hadd).
  destruct (Hadd (query 7 "example.com" 0) eq_refl)
    as (r1 & r2 & H1 & H2 & _ & H3).
  exists r1, r2. split_and!; assumption.
Defined.

Lemma xchgKey_witness :
  xchgMgr.mu newXchgMgr = false
  ∧ xchgMgr.xchgs newXchgMgr !! xchgKey 7 "Example.COM." = None
  ∧ ToLower (RemoveLastDot "Example.COM.") = ToLower (RemoveLastDot "example.com")
  ∧ xchgKey 7 "Example.COM." = xchgKey 7 "example.com"
  ∧ ∃ r1 r2,
      xchgMgr.add (query 7 "Example.COM." 0) newXchgMgr = Ret None r1
      ∧ xchgMgr.remove 7 "example.com" r1 = Ret (Some (query 7 "Example.COM." 0)) r2.
Proof.
  split_and!; [reflexivity|reflexivity|reflexivity| |];
    destruct (xchgKey_ignores_case_and_trailing_dot newXchgMgr
                (query 7 "Example.COM." 0) "example.com" eq_refl eq_refl eq_refl)
      as (Hkey & r1 & r2 & H1 & H2 & _).
  - apply (Hkey 7%N).
  - exists r1, r2. split; assumption.
Defined.

(** ** The connection pool: [Add], construction and rotation *)

Lemma same_frame_refl p : same_frame p p.
Proof. by split. Qed.

Lemma same_frame_trans p1 p2 p3 : same_frame p1 p2 -> same_frame p2 p3 -> same_frame p1 p3.
Proof. intros [] []. split; congruence. Qed.

Lemma Add_run p :
  ∃ p',
    connections.Add p
    = Ret (match connections.ListenPacket p (connections.listens p) (laddr_of p) with
           | inl _ => None
           | inr err => Some err
           end) p'
    ∧ same_frame p p'
    ∧ connections.listens p' = S (connections.listens p)
    ∧ match connections.ListenPacket p (connections.listens p) (laddr_of p) with
      | inl conn =>
          ∃ d, connections.conns (connections.pool p')
               = Some (default [] (connections.conns (connections.pool p))
                       ++ [{| connection.conn := conn; connection.done := d |}])
      | inr _ =>
          connections.conns (connections.pool p') = connections.conns (connections.pool p)
      end.
Proof.
  destruct p as [[mu done conns resps nw cpus] closed chans spawned linux listens os].
  unfold connections.Add, laddr_of, bind, gets. cbn -[default].
  destruct linux.
  - unfold connections.linuxListenPacket, bind, gets, connections.listen_packet.
    cbn -[default].
    destruct (os listens _) as [conn|err]; cbn -[default];
      (eexists; split; [reflexivity|]; split; [by split|]; split; [done|]); eauto.
  - unfold connections.listen_packet. cbn -[default].
    destruct (os listens None) as [conn|err]; cbn -[default];
      (eexists; split; [reflexivity|]; split; [by split|]; split; [done|]); eauto.
Qed.

Lemma grants_next p p' n :
  grants p (S n) -> same_frame p p' ->
  connections.listens p' = S (connections.listens p) ->
  grants p' n.
Proof.
  intros Hg Hf Hl k laddr Hk. rewrite (frame_os _ _ Hf), Hl.
  replace (S (connections.listens p) + k)%nat with (connections.listens p + S k)%nat by lia.
  apply Hg. lia.
Qed.

Lemma Add_granted p n :
  grants p (S n) ->
  ∃ p' c,
    connections.Add p = Ret None p'
    ∧ same_frame p p'
    ∧ connections.listens p' = S (connections.listens p)
    ∧ connections.conns (connections.pool p')
      = Some (default [] (connections.conns (connections.pool p)) ++ [c])
    ∧ grants p' n.
Proof.
  intros Hg. destruct (Add_run p) as (p' & Hrun & Hf & Hl & Hc).
  destruct (Hg 0%nat (laddr_of p)) as [conn Hconn]; [lia|].
  rewrite Nat.add_0_r in Hconn. rewrite Hconn in Hrun, Hc. destruct Hc as [d Hc].
  exists p', {| connection.conn := conn; connection.done := d |}.
  split_and!; try done. by eapply grants_next.
Qed.

Lemma Add_refused p :
  (∀ laddr, ∃ err, connections.ListenPacket p (connections.listens p) laddr = inr err) ->
  ∃ p' err,
    connections.Add p = Ret (Some err) p'
    ∧ same_frame p p'
    ∧ connections.conns (connections.pool p') = connections.conns (connections.pool p).
Proof.
  intros Hno. destruct (Add_run p) as (p' & Hrun & Hf & Hl & Hc).
  destruct (Hno (laddr_of p)) as [err Herr]. rewrite Herr in Hrun, Hc.
  by exists p', err.
Qed.

Lemma len_snoc cs c : connections.len (Some (default [] cs ++ [c])) = connections.len cs + 1.
Proof. unfold connections.len. simpl. rewrite length_app. simpl. lia. Qed.

(** The loop of [newConnections] when every request is granted. *)
Lemma newConnections_loop_granted n : forall p,
  grants p n ->
  ∃ p',
    newConnections_loop n p = Ret false p'
    ∧ same_frame p p'
    ∧ connections.len (connections.conns (connections.pool p'))
      = connections.len (connections.conns (connections.pool p)) + Z.of_nat n.
Proof.
  induction n as [|n IH]; intros p Hg.
  - exists p. split_and!; [done|apply same_frame_refl|lia].
  - destruct (Add_granted p n Hg) as (p1 & c & Hadd & Hf & Hl & Hc & Hg1).
    destruct (IH p1 Hg1) as (p' & Hloop & Hf' & Hlen).
    exists p'. cbn [newConnections_loop]. unfold bind. rewrite Hadd.
    split_and!; [done|by eapply same_frame_trans|].
    rewrite Hlen, Hc, len_snoc. lia.
Qed.

(** The loop of [newConnections] when the request number [k] is refused: the
    loop calls [Close] with the mutex held. *)
Lemma newConnections_loop_refused n : forall p k,
  connections.mu (connections.pool p) = true ->
  (k < n)%nat ->
  grants p k ->
  (∀ laddr, ∃ err,
     connections.ListenPacket p (connections.listens p + k)%nat laddr = inr err) ->
  newConnections_loop n p = Blocked.
Proof.
  induction n as [|n IH]; intros p k Hmu Hk Hg Hno; [lia|].
  cbn [newConnections_loop]. unfold bind at 1. destruct k as [|k].
  - destruct (Add_refused p) as (p' & err & Hadd & Hf & _).
    { intros laddr. specialize (Hno laddr). by rewrite Nat.add_0_r in Hno. }
    rewrite Hadd. unfold bind. unfold connections.Close.
    rewrite critical_blocked; [done|]. simpl. by rewrite (frame_mu _ _ Hf).
  - destruct (Add_granted p k Hg) as (p1 & c & Hadd & Hf & Hl & _ & Hg1).
    rewrite Hadd. apply (IH p1 k); [by rewrite (frame_mu _ _ Hf)|lia|done|].
    intros laddr. rewrite (frame_os _ _ Hf), Hl.
    replace (S (connections.listens p) + k)%nat
      with (connections.listens p + S k)%nat by lia.
    apply Hno.
Qed.

(** The loop of [rotate]. *)
Lemma rotate_loop_run n : forall p,
  ∃ p',
    connections.rotate_loop n p = Ret tt p'
    ∧ same_frame p p'
    ∧ (is_Some (connections.conns (connections.pool p)) ->
       is_Some (connections.conns (connections.pool p')))
    ∧ connections.len (connections.conns (connections.pool p))
      <= connections.len (connections.conns (connections.pool p'))
      <= connections.len (connections.conns (connections.pool p)) + Z.of_nat n
    ∧ (grants p n ->
       connections.len (connections.conns (connections.pool p'))
       = connections.len (connections.conns (connections.pool p)) + Z.of_nat n).
Proof.
  induction n as [|n IH]; intros p.
  - exists p. split_and!; [done|apply same_frame_refl|done|lia|lia|lia].
  - destruct (Add_run p) as (p1 & Hadd & Hf & Hl & Hc).
    destruct (IH p1) as (p' & Hloop & Hf' & Hsome & Hle & Hall).
    exists p'. cbn [connections.rotate_loop]. unfold bind. rewrite Hadd.
    assert (Hstep : connections.len (connections.conns (connections.pool p))
                    <= connections.len (connections.conns (connections.pool p1))
                    <= connections.len (connections.conns (connections.pool p)) + 1
                  ∧ (is_Some (connections.conns (connections.pool p)) ->
                     is_Some (connections.conns (connections.pool p1)))).
    { destruct (connections.ListenPacket p _ _).
      - destruct Hc as [d ->]. rewrite len_snoc. split; [lia|]. by eexists.
      - rewrite Hc. split; [lia|done]. }
    destruct Hstep as [Hstep Hsome1].
    split_and!; [done|by eapply same_frame_trans|tauto|lia|lia|].
    intros Hg. destruct (Add_granted p n Hg) as (p1' & c & Hadd' & _ & _ & Hc' & Hg1).
    rewrite Hadd in Hadd'. simplify_eq. rewrite Hall by done.
    rewrite Hc', len_snoc. lia.
Qed.

Lemma newConnections_granted p cpus resps :
  grants p (Z.to_nat cpus) ->
  ∃ p',
    newConnections cpus resps p = Ret the_pool p'
    ∧ connections.mu (connections.pool p') = false
    ∧ connections.cpus (connections.pool p') = cpus
    ∧ connections.nextWrite (connections.pool p') = 0
    ∧ connections.len (connections.conns (connections.pool p')) = Z.of_nat (Z.to_nat cpus).
Proof.
  intros Hg. unfold newConnections, bind at 1. unfold connections.make_chan.
  unfold bind at 1. unfold modify.
  match goal with |- ∃ _, critical _ ?s = _ ∧ _ => set (p0 := s) end.
  destruct (newConnections_loop_granted (Z.to_nat cpus) (set_held true p0))
    as (p1 & Hloop & Hf & Hlen); [exact Hg|].
  pose proof (frame_mu _ _ Hf) as Hmu. pose proof (frame_cpus _ _ Hf) as Hcpus.
  pose proof (frame_nextWrite _ _ Hf) as Hnw. simpl in Hmu, Hcpus, Hnw, Hlen.
  pose (p2 := match connections.go go_rotations p1 with Ret _ s => s | _ => p1 end).
  exists (set_held false p2). split.
  - apply critical_run.
    + reflexivity.
    + unfold bind at 1. rewrite Hloop. reflexivity.
    + simpl. exact Hmu.
  - simpl. by split_and!.
Qed.

(** C7 is what the code sets out to do and does not do.  When the request
    number [k] (counting from 0) of the N is the first one refused,
    [newConnections] calls [Close] while it holds the pool's mutex; [Close]
    locks that mutex again and never gets it: no socket is closed and nothing,
    not even nil, is returned. *)
Theorem newConnections_blocks_when_a_socket_is_refused p cpus resps k :
  (k < Z.to_nat cpus)%nat ->
  grants p k ->
  (∀ laddr, ∃ err,
     connections.ListenPacket p (connections.listens p + k)%nat laddr = inr err) ->
  newConnections cpus resps p = Blocked.
Proof.
  intros Hk Hg Hno. unfold newConnections, bind at 1. unfold connections.make_chan.
  unfold bind at 1. unfold modify.
  match goal with |- critical _ ?s = _ => set (p0 := s) end.
  unfold critical, bind at 1. unfold Lock.
  change (held p0) with false. cbv iota. unfold bind.
  rewrite (newConnections_loop_refused (Z.to_nat cpus) _ k); [done|done|done|exact Hg|exact Hno].
Qed.

Lemma for_each_go_run (g : connection.t -> goroutine) (l : list connection.t) : forall p,
  connections.for_each l (fun c => connections.go (g c)) p
  = Ret tt {| connections.pool := connections.pool p;
              connections.closed := connections.closed p;
              connections.chans := connections.chans p;
              connections.spawned := connections.spawned p ++ (g <$> l);
              connections.linux := connections.linux p;
              connections.listens := connections.listens p;
              connections.ListenPacket := connections.ListenPacket p |}.
Proof.
  induction l as [|c l IH]; intros p.
  - destruct p. simpl. unfold ret. by rewrite app_nil_r.
  - cbn [connections.for_each]. unfold bind, connections.go at 1, modify.
    rewrite IH. simpl. by rewrite <- app_assoc.
Qed.

Lemma rotate_run p :
  connections.mu (connections.pool p) = false ->
  ∃ p',
    connections.rotate p = Ret tt p'
    ∧ same_frame p p'
    ∧ is_Some (connections.conns (connections.pool p'))
    ∧ 0 <= connections.len (connections.conns (connections.pool p'))
        <= Z.of_nat (Z.to_nat (connections.cpus (connections.pool p)))
    ∧ (grants p (Z.to_nat (connections.cpus (connections.pool p))) ->
       connections.len (connections.conns (connections.pool p'))
       = Z.of_nat (Z.to_nat (connections.cpus (connections.pool p)))).
Proof.
  intros Hfree.
  destruct p as [[mu done conns resps nw cpus] closed chans spawned linux listens os].
  simpl in Hfree. subst mu.
  set (p0 := {| connections.pool :=
                  {| connections.mu := true; connections.done := done;
                     connections.conns := Some []; connections.resps := resps;
                     connections.nextWrite := nw; connections.cpus := cpus |};
                connections.closed := closed; connections.chans := chans;
                connections.spawned :=
                  spawned ++ (go_delayed_close <$> default [] conns);
                connections.linux := linux; connections.listens := listens;
                connections.ListenPacket := os |}).
  destruct (rotate_loop_run (Z.to_nat cpus) p0) as (p1 & Hloop & Hf & Hsome & Hle & Hall).
  exists (set_held false p1). split.
  - apply critical_run.
    + reflexivity.
    + unfold bind at 1. unfold gets. unfold bind at 1.
      rewrite for_each_go_run. unfold bind at 1. unfold modify.
      unfold bind at 1. exact Hloop.
    + simpl. by rewrite (frame_mu _ _ Hf).
  - destruct Hf. simpl in *. split_and!.
    + by split.
    + apply Hsome. by eexists.
    + unfold connections.len in *. simpl in *. lia.
    + unfold connections.len in *. simpl in *. lia.
    + intros Hg. rewrite Hall by exact Hg. unfold connections.len. simpl. lia.
Qed.

Lemma int_wrap_small z : - 2 ^ 63 <= z < 2 ^ 63 -> int_wrap z = z.
Proof.
  intros Hz. unfold int_wrap.
  rewrite Z.mod_small; [lia|]. change (2 ^ 64) with (2 ^ 63 + 2 ^ 63). lia.
Qed.

(** ** The connection pool: [Next] *)

Ltac pool_simpl :=
  cbn [pool_at connections.with_pool held set_held connections.mutex
       connections.pool connections.closed connections.chans connections.spawned
       connections.linux connections.listens connections.ListenPacket
       connections.mu connections.done connections.conns connections.resps
       connections.nextWrite connections.cpus
       connections.set_mu connections.set_conns connections.set_nextWrite].

Ltac run_step := unfold bind, gets, modify, ret, panic; pool_simpl.

Lemma len_nonempty cs : cs ≠ [] -> (connections.len (Some cs) =? 0) = false.
Proof.
  intros Hne. unfold connections.len. simpl. apply Z.eqb_neq.
  destruct cs; [done|]. simpl. lia.
Qed.

Lemma Next_run p cs cur c :
  Z.of_nat (length cs) < 2 ^ 63 ->
  0 <= cur ->
  cs !! Z.to_nat cur = Some c ->
  connections.Next (pool_at p cs cur)
  = Ret (Some (connection.conn c))
        (pool_at p cs ((cur + 1) mod Z.of_nat (length cs))).
Proof.
  intros Hlen Hcur Hc. pose proof (lookup_lt_Some _ _ _ Hc) as Hlt.
  assert (Hne : cs ≠ []) by (intros ->; simpl in Hlt; lia).
  destruct p as [[mu done conns resps nw cpus] closed chans spawned linux listens os].
  unfold connections.Next, critical, Lock, Unlock, connections.index. run_step.
  rewrite (len_nonempty cs Hne). pool_simpl.
  assert (Hnn : (cur <? 0) = false) by (apply Z.ltb_ge; lia).
  rewrite Hnn, Hc. pool_simpl.
  rewrite int_wrap_small by lia.
  rewrite Z.rem_mod_nonneg by (unfold connections.len; simpl; lia).
  reflexivity.
Qed.

Lemma Next_out_of_range p cs cur :
  cs ≠ [] ->
  cur < 0 ∨ Z.of_nat (length cs) <= cur ->
  connections.Next (pool_at p cs cur) = Panic "index out of range".
Proof.
  intros Hne Hcur.
  destruct p as [[mu done conns resps nw cpus] closed chans spawned linux listens os].
  unfold connections.Next, critical, Lock, Unlock, connections.index. run_step.
  rewrite (len_nonempty cs Hne). pool_simpl.
  destruct (cur <? 0) eqn:Hneg; [done|].
  apply Z.ltb_ge in Hneg.
  rewrite (lookup_ge_None_2 cs (Z.to_nat cur)) by lia. done.
Qed.

Lemma pool_at_id p :
  connections.mu (connections.pool p) = false ->
  ∀ cs, connections.conns (connections.pool p) = Some cs ->
  pool_at p cs (connections.nextWrite (connections.pool p)) = p.
Proof.
  destruct p as [[mu done conns resps nw cpus] closed chans spawned linux listens os].
  simpl. by intros -> cs ->.
Qed.

Lemma pool_at_cursor p cs cur :
  connections.mu (connections.pool p) = false ->
  connections.conns (connections.pool p) = Some cs ->
  pool_at p cs cur = connections.with_pool (connections.set_nextWrite cur) p.
Proof.
  destruct p as [[mu done conns resps nw cpus] closed chans spawned linux listens os].
  simpl. by intros -> ->.
Qed.

Lemma served_S cs cur k :
  served cs cur (S k)
  = (connection.conn <$> cs !! Z.to_nat (cur mod Z.of_nat (length cs)))
      :: served cs ((cur + 1) mod Z.of_nat (length cs)) k.
Proof.
  unfold served. cbn [seq fmap list_fmap]. rewrite Z.add_0_r. f_equal.
  rewrite <- seq_shift, <- list_fmap_compose.
  apply list_fmap_ext. intros _ j _. simpl.
  rewrite Zplus_mod_idemp_l.
  by replace (cur + 1 + Z.of_nat j) with (cur + Z.of_nat (S j)) by lia.
Qed.

Lemma calls_Next_run k : forall p cs cur,
  Z.of_nat (length cs) < 2 ^ 63 ->
  0 <= cur < Z.of_nat (length cs) ->
  calls_Next k (pool_at p cs cur)
  = Ret (served cs cur k) (pool_at p cs ((cur + Z.of_nat k) mod Z.of_nat (length cs))).
Proof.
  induction k as [|k IH]; intros p cs cur Hlen Hcur.
  - simpl. unfold ret. rewrite Z.add_0_r, Z.mod_small by done. reflexivity.
  - destruct (lookup_lt_is_Some_2 cs (Z.to_nat cur)) as [c Hc]; [lia|].
    cbn [calls_Next]. unfold bind at 1. rewrite (Next_run p cs cur c) by (done || lia).
    unfold bind at 1. rewrite IH by (done || apply Z.mod_pos_bound; lia).
    unfold ret. rewrite served_S, (Z.mod_small cur), Hc by done.
    rewrite Zplus_mod_idemp_l.
    by replace (cur + 1 + Z.of_nat k) with (cur + Z.of_nat (S k)) by lia.
Qed.

Lemma served_lookup cs cur k j :
  (j < k)%nat ->
  0 <= cur ->
  cs ≠ [] ->
  served cs cur k !! j
  = sockets cs !! Z.to_nat ((cur + Z.of_nat j) mod Z.of_nat (length cs)).
Proof.
  intros Hj Hcur Hne. unfold served, sockets.
  rewrite list_lookup_fmap, lookup_seq_lt by done. simpl.
  rewrite list_lookup_fmap.
  destruct (lookup_lt_is_Some_2 cs (Z.to_nat ((cur + Z.of_nat j) mod Z.of_nat (length cs))))
    as [c Hc].
  { assert (0 < Z.of_nat (length cs)) by (destruct cs; [done|simpl; lia]).
    pose proof (Z.mod_pos_bound (cur + Z.of_nat j) (Z.of_nat (length cs))). lia. }
  by rewrite Hc.
Qed.

Lemma served_twice cs cur :
  0 <= cur ->
  cs ≠ [] ->
  served cs cur (2 * length cs)
  = rotate (Z.to_nat cur) (sockets cs) ++ rotate (Z.to_nat cur) (sockets cs).
Proof.
  intros Hcur Hne.
  assert (HN : 0 < Z.of_nat (length cs)) by (destruct cs; [done|simpl; lia]).
  assert (Hls : length (sockets cs) = length cs) by (unfold sockets; apply length_fmap).
  assert (Hlen : length (served cs cur (2 * length cs)) = (2 * length cs)%nat).
  { unfold served. by rewrite length_fmap, length_seq. }
  apply list_eq. intros j.
  destruct (decide (j < 2 * length cs)%nat) as [Hj|Hj].
  - rewrite served_lookup by done.
    destruct (decide (j < length cs)%nat) as [Hj1|Hj1].
    + rewrite lookup_app_l by (rewrite length_rotate; lia).
      rewrite lookup_rotate_r by lia. unfold rotate_nat_add.
      by rewrite Hls, Z2Nat.id.
    + rewrite lookup_app_r by (rewrite length_rotate; lia).
      rewrite length_rotate, Hls.
      rewrite lookup_rotate_r by lia. unfold rotate_nat_add. rewrite Hls.
      rewrite Z2Nat.id, Nat2Z.inj_sub by lia.
      replace (cur + Z.of_nat j)
        with (cur + (Z.of_nat j - Z.of_nat (length cs)) + 1 * Z.of_nat (length cs))
        by lia.
      by rewrite Z_mod_plus_full.
  - rewrite !lookup_ge_None_2; [done| |lia].
    rewrite length_app, !length_rotate. lia.
Qed.

Lemma rotate_Permutation {A} n (l : list A) : rotate n l ≡ₚ l.
Proof.
  unfold rotate. rewrite Permutation_app_comm. by rewrite take_drop.
Qed.

Lemma round_robin_from p cs cur :
  (1 <= length cs)%nat ->
  Z.of_nat (length cs) < 2 ^ 63 ->
  0 <= cur < Z.of_nat (length cs) ->
  (∃ c, cs !! Z.to_nat cur = Some c
        ∧ connections.Next (pool_at p cs cur)
          = Ret (Some (connection.conn c))
                (pool_at p cs ((cur + 1) mod Z.of_nat (length cs))))
  ∧ ∃ results,
      calls_Next (2 * length cs) (pool_at p cs cur) = Ret results (pool_at p cs cur)
      ∧ (∀ k, (k < 2 * length cs)%nat ->
           results !! k
           = sockets cs !! Z.to_nat ((cur + Z.of_nat k) mod Z.of_nat (length cs)))
      ∧ results ≡ₚ sockets cs ++ sockets cs.
Proof.
  intros HN Hlen Hcur.
  assert (Hne : cs ≠ []) by (intros ->; simpl in HN; lia).
  split.
  - destruct (lookup_lt_is_Some_2 cs (Z.to_nat cur)) as [c Hc]; [lia|].
    exists c. split; [done|]. apply Next_run; (done || lia).
  - exists (served cs cur (2 * length cs)). split_and!.
    + rewrite calls_Next_run by done. do 2 f_equal.
      replace (cur + Z.of_nat (2 * length cs))
        with (cur + 2 * Z.of_nat (length cs)) by lia.
      rewrite Z_mod_plus_full. apply Z.mod_small. done.
    + intros k Hk. apply served_lookup; (done || lia).
    + rewrite served_twice by (done || lia). by rewrite !rotate_Permutation.
Qed.

(** X18. On a pool that holds the fixed slice [cs] of N >= 1 sockets and
    whose cursor is inside the slice, each [Next] returns the socket under
    the cursor and moves the cursor on by one modulo N; 2N calls in sequence
    return the socket at index (initial cursor + k) mod N on the call number
    k, which is every socket exactly twice, and bring the cursor back where
    it was.  The cursor is inside the slice after a construction and as long
    as no rotation has left a shorter slice. *)
Theorem Next_is_round_robin p cs :
  connections.mu (connections.pool p) = false ->
  connections.conns (connections.pool p) = Some cs ->
  (1 <= length cs)%nat ->
  Z.of_nat (length cs) < 2 ^ 63 ->
  0 <= connections.nextWrite (connections.pool p) < Z.of_nat (length cs) ->
  (∃ c, cs !! Z.to_nat (connections.nextWrite (connections.pool p)) = Some c
        ∧ connections.Next p
          = Ret (Some (connection.conn c))
                (connections.with_pool
                   (connections.set_nextWrite
                      ((connections.nextWrite (connections.pool p) + 1)
                       mod Z.of_nat (length cs))) p))
  ∧ ∃ results,
      calls_Next (2 * length cs) p = Ret results p
      ∧ (∀ k, (k < 2 * length cs)%nat ->
           results !! k
           = sockets cs !! Z.to_nat ((connections.nextWrite (connections.pool p)
                                      + Z.of_nat k) mod Z.of_nat (length cs)))
      ∧ results ≡ₚ sockets cs ++ sockets cs.
Proof.
  intros Hmu Hcs HN Hlen Hcur.
  pose proof (round_robin_from p cs _ HN Hlen Hcur) as Hrr.
  rewrite (pool_at_id p Hmu cs Hcs) in Hrr.
  rewrite (pool_at_cursor p cs _ Hmu Hcs) in Hrr.
  exact Hrr.
Qed.

(** ** The connection pool: [Close] *)

Lemma close_run ch p :
  ch ∉ connections.closed p ->
  connections.close ch p = Ret tt (close_all [ch] p).
Proof.
  intros Hch. unfold connections.close. by rewrite bool_decide_eq_false_2.
Qed.

Lemma for_each_close_run (cs : list connection.t) : forall p,
  NoDup (connection.done <$> cs) ->
  (∀ ch, ch ∈ connection.done <$> cs -> ch ∉ connections.closed p) ->
  connections.for_each cs (fun c => connections.close (connection.done c)) p
  = Ret tt (close_all (connection.done <$> cs) p).
Proof.
  induction cs as [|c cs IH]; intros p Hnd Hopen.
  - by destruct p.
  - rewrite fmap_cons in Hnd, Hopen. apply NoDup_cons in Hnd as [Hc Hnd].
    cbn [connections.for_each]. unfold bind.
    rewrite close_run by (apply Hopen; left).
    rewrite IH; [| done |].
    + unfold close_all. simpl. by rewrite <- !app_assoc.
    + intros ch Hch. simpl. intros [->|Hin]%elem_of_cons; [done|].
      revert Hin. apply Hopen. by right.
Qed.

Lemma Close_open_run p cs :
  connections.mu (connections.pool p) = false ->
  connections.conns (connections.pool p) = Some cs ->
  NoDup (channels (connections.pool p)) ->
  (∀ ch, ch ∈ channels (connections.pool p) -> ch ∉ connections.closed p) ->
  connections.Close p
  = Ret tt (connections.with_pool (connections.set_conns None)
              (close_all (channels (connections.pool p)) p)).
Proof.
  destruct p as [[mu done conns resps nw cpus] closed chans spawned linux listens os].
  unfold channels. simpl. intros -> -> Hnd Hopen.
  apply NoDup_cons in Hnd as [Hd Hnd].
  unfold connections.Close, critical, Lock, Unlock. run_step.
  rewrite close_run by (simpl; apply Hopen; left). unfold close_all at 1. pool_simpl.
  rewrite for_each_close_run; [| done |].
  - unfold close_all. pool_simpl. simpl. by rewrite <- !app_assoc.
  - intros ch Hch. simpl. intros [->|Hin]%elem_of_cons; [done|].
    revert Hin. apply Hopen. by right.
Qed.

Lemma Close_closed_run p :
  connections.mu (connections.pool p) = false ->
  connections.conns (connections.pool p) = None ->
  connections.Close p = Ret tt p.
Proof.
  destruct p as [[mu done conns resps nw cpus] closed chans spawned linux listens os].
  simpl. intros -> ->. reflexivity.
Qed.

Lemma Next_closed_run p :
  connections.mu (connections.pool p) = false ->
  connections.conns (connections.pool p) = None ->
  connections.Next p = Ret None p.
Proof.
  destruct p as [[mu done conns resps nw cpus] closed chans spawned linux listens os].
  simpl. intros -> ->. reflexivity.
Qed.

Lemma WriteMsg_closed_run p packed WriteTo :
  connections.mu (connections.pool p) = false ->
  connections.conns (connections.pool p) = None ->
  ∃ err, connections.WriteMsg packed WriteTo p = Ret (Some err) p.
Proof.
  intros Hmu Hnil. unfold connections.WriteMsg. destruct packed as [out|err].
  - unfold bind. rewrite Next_closed_run by done. by eexists.
  - by eexists.
Qed.

Lemma closed_pool_refuses p c :
  connections.mu (connections.pool p) = false ->
  connections.conns (connections.pool p) = None ->
  ∃ r, run_call c p = Ret r p ∧ refused r.
Proof.
  intros Hmu Hnil. destruct c as [|packed WriteTo|]; simpl; unfold bind.
  - rewrite Next_closed_run by done. by eexists.
  - destruct (WriteMsg_closed_run p packed WriteTo Hmu Hnil) as [err ->].
    eexists. split; [done|]. by eexists.
  - rewrite Close_closed_run by done. by eexists.
Qed.

(** X19. The first [Close] on an open pool whose channels are open closes
    them and sets the slice to nil.  As long as no rotation runs, in every
    sequence of calls of [Next], [WriteMsg] and [Close] made from then on
    each [Next] returns nil, each [WriteMsg] returns an error, and the pool
    stays as the first [Close] left it; in particular a second [Close]
    changes nothing. *)
Theorem Close_then_everything_fails p cs :
  connections.mu (connections.pool p) = false ->
  connections.conns (connections.pool p) = Some cs ->
  NoDup (channels (connections.pool p)) ->
  (∀ ch, ch ∈ channels (connections.pool p) -> ch ∉ connections.closed p) ->
  ∃ p1,
    connections.Close p = Ret tt p1
    ∧ connections.conns (connections.pool p1) = None
    ∧ (∀ ch, ch ∈ channels (connections.pool p) -> ch ∈ connections.closed p1)
    ∧ connections.Next p1 = Ret None p1
    ∧ (∀ packed WriteTo, ∃ err, connections.WriteMsg packed WriteTo p1 = Ret (Some err) p1)
    ∧ connections.Close p1 = Ret tt p1
    ∧ (∀ calls, ∃ replies, run_calls calls p1 = Ret replies p1 ∧ Forall refused replies).
Proof.
  intros Hmu Hcs Hnd Hopen. eexists. split; [by eapply Close_open_run|].
  set (p1 := connections.with_pool _ _).
  assert (Hmu1 : connections.mu (connections.pool p1) = false) by (by destruct p as [[]]).
  assert (Hnil : connections.conns (connections.pool p1) = None) by done.
  split_and!.
  - done.
  - intros ch Hch. subst p1.
    cbn [connections.with_pool connections.closed close_all]. apply elem_of_app. left.
    by rewrite list_elem_of_In, <- in_rev, <- list_elem_of_In.
  - by apply Next_closed_run.
  - intros. by apply WriteMsg_closed_run.
  - by apply Close_closed_run.
  - induction calls as [|c calls IH].
    + by exists [].
    + destruct (closed_pool_refuses p1 c Hmu1 Hnil) as (r & Hr & Hfail).
      destruct IH as (rs & Hrs & Hfails). exists (r :: rs).
      cbn [run_calls]. unfold bind. rewrite Hr, Hrs. by split; [|constructor].
Qed.

(** ** Construction, rotation and the cursor *)

(** C4, as stated, fails: on a pool of target size 4, a rotation during which
    two of the four socket creations fail leaves a slice of length 2. *)
Lemma rotation_can_shrink_the_pool :
  newConnections 4 0 (boot (sockets_left 6)) = Ret the_pool four_sockets
  ∧ ∃ p',
      connections.rotate four_sockets = Ret tt p'
      ∧ connections.cpus (connections.pool p') = 4
      ∧ connections.len (connections.conns (connections.pool p')) = 2
      ∧ connections.len (connections.conns (connections.pool p'))
        ≠ connections.cpus (connections.pool p').
Proof.
  split; [vm_compute; reflexivity|]. eexists.
  split; [vm_compute; reflexivity|]. split; [reflexivity|].
  split; [reflexivity|]. vm_compute. discriminate.
Qed.

(** C4, amended. A construction during which every socket creation succeeds
    returns a pool whose slice has length N.  A rotation leaves a non-nil
    slice of length at most N, and of length N when every socket creation of
    the rotation succeeds. *)
Theorem pool_size_after_construction_and_rotation :
  (∀ p N resps,
     0 <= N ->
     grants p (Z.to_nat N) ->
     ∃ p',
       newConnections N resps p = Ret the_pool p'
       ∧ connections.cpus (connections.pool p') = N
       ∧ connections.len (connections.conns (connections.pool p')) = N)
  ∧ (∀ p,
       connections.mu (connections.pool p) = false ->
       0 <= connections.cpus (connections.pool p) ->
       ∃ p',
         connections.rotate p = Ret tt p'
         ∧ connections.cpus (connections.pool p') = connections.cpus (connections.pool p)
         ∧ is_Some (connections.conns (connections.pool p'))
         ∧ connections.len (connections.conns (connections.pool p'))
           <= connections.cpus (connections.pool p)
         ∧ (grants p (Z.to_nat (connections.cpus (connections.pool p))) ->
            connections.len (connections.conns (connections.pool p'))
            = connections.cpus (connections.pool p))).
Proof.
  split.
  - intros p N resps HN Hg.
    destruct (newConnections_granted p N resps Hg) as (p' & Hrun & _ & Hcpus & _ & Hlen).
    exists p'. split_and!; [done|done|]. rewrite Hlen. lia.
  - intros p Hmu HN.
    destruct (rotate_run p Hmu) as (p' & Hrun & Hf & Hsome & Hle & Hall).
    exists p'. split_and!; [done|by destruct Hf|done|lia|].
    intros Hg. rewrite Hall by done. lia.
Qed.

Lemma pool_size_witness :
  (0 <= 4 ∧ grants (boot generous) (Z.to_nat 4)
   ∧ ∃ p', newConnections 4 0 (boot generous) = Ret the_pool p'
           ∧ connections.len (connections.conns (connections.pool p')) = 4)
  ∧ (connections.mu (connections.pool four_sockets) = false
     ∧ 0 <= connections.cpus (connections.pool four_sockets)
     ∧ ∃ p', connections.rotate four_sockets = Ret tt p'
             ∧ connections.len (connections.conns (connections.pool p'))
               <= connections.cpus (connections.pool four_sockets)).
Proof.
  destruct pool_size_after_construction_and_rotation as [Hnew Hrot].
  assert (Hg : grants (boot generous) (Z.to_nat 4)).
  { intros k laddr _. eexists. reflexivity. }
  split.
  - split; [lia|]. split; [exact Hg|].
    destruct (Hnew (boot generous) 4 0%nat ltac:(lia) Hg) as (p' & Hrun & _ & Hlen).
    exists p'. split; assumption.
  - split; [reflexivity|]. split; [vm_compute; discriminate|].
    destruct (Hrot four_sockets ltac:(vm_compute; reflexivity)
                ltac:(vm_compute; discriminate))
      as (p' & Hrun & _ & _ & Hle & _).
    exists p'. split; assumption.
Defined.

Lemma newConnections_blocks_witness :
  (1 < Z.to_nat 2)%nat
  ∧ grants (boot (sockets_left 1)) 1
  ∧ (∀ laddr, ∃ err,
       connections.ListenPacket (boot (sockets_left 1))
         (connections.listens (boot (sockets_left 1)) + 1)%nat laddr = inr err)
  ∧ newConnections 2 0 (boot (sockets_left 1)) = Blocked.
Proof.
  assert (Hk : (1 < Z.to_nat 2)%nat) by (simpl; lia).
  assert (Hg : grants (boot (sockets_left 1)) 1).
  { intros k laddr Hlt. destruct k; [|lia]. eexists. reflexivity. }
  assert (Hno : ∀ laddr, ∃ err,
             connections.ListenPacket (boot (sockets_left 1))
               (connections.listens (boot (sockets_left 1)) + 1)%nat laddr = inr err).
  { intros laddr. eexists. reflexivity. }
  split_and!; [exact Hk|exact Hg|exact Hno|].
  exact (newConnections_blocks_when_a_socket_is_refused
           (boot (sockets_left 1)) 2 0%nat 1%nat Hk Hg Hno).
Defined.

Lemma Next_round_robin_witness :
  connections.mu (connections.pool four_sockets) = false
  ∧ 0 <= connections.nextWrite (connections.pool four_sockets) < 4
  ∧ ∃ cs results,
      connections.conns (connections.pool four_sockets) = Some cs
      ∧ length cs = 4%nat
      ∧ calls_Next (2 * length cs) four_sockets = Ret results four_sockets
      ∧ results ≡ₚ sockets cs ++ sockets cs.
Proof.
  assert (Hmu : connections.mu (connections.pool four_sockets) = false)
    by (vm_compute; reflexivity).
  assert (Hcs : ∃ cs, connections.conns (connections.pool four_sockets) = Some cs
                      ∧ length cs = 4%nat)
    by (eexists; split; vm_compute; reflexivity).
  destruct Hcs as (cs & Hcs & Hfour).
  assert (Hcur : 0 <= connections.nextWrite (connections.pool four_sockets) < 4)
    by (vm_compute; split; discriminate || reflexivity).
  split; [exact Hmu|]. split; [exact Hcur|].
  destruct (Next_is_round_robin four_sockets cs Hmu Hcs
              ltac:(rewrite Hfour; lia) ltac:(rewrite Hfour; simpl; lia)
              ltac:(rewrite Hfour; exact Hcur))
    as (_ & results & Hrun & _ & Hperm).
  exists cs, results. split_and!; assumption.
Defined.

Lemma Close_witness :
  connections.mu (connections.pool four_sockets) = false
  ∧ NoDup (channels (connections.pool four_sockets))
  ∧ (∀ ch, ch ∈ channels (connections.pool four_sockets) ->
           ch ∉ connections.closed four_sockets)
  ∧ ∃ cs p1,
      connections.conns (connections.pool four_sockets) = Some cs
      ∧ connections.Close four_sockets = Ret tt p1
      ∧ connections.Next p1 = Ret None p1
      ∧ connections.Close p1 = Ret tt p1.
Proof.
  assert (Hmu : connections.mu (connections.pool four_sockets) = false)
    by (vm_compute; reflexivity).
  assert (Hnd : NoDup (channels (connections.pool four_sockets))).
  { apply (bool_decide_unpack _). vm_compute. exact I. }
  assert (Hopen : ∀ ch, ch ∈ channels (connections.pool four_sockets) ->
                        ch ∉ connections.closed four_sockets).
  { intros ch _. change (connections.closed four_sockets) with (@nil chan).
    apply not_elem_of_nil. }
  split_and!; [exact Hmu|exact Hnd|exact Hopen|].
  assert (Hcs : ∃ cs, connections.conns (connections.pool four_sockets) = Some cs)
    by (eexists; vm_compute; reflexivity).
  destruct Hcs as [cs Hcs].
  destruct (Close_then_everything_fails four_sockets cs Hmu Hcs Hnd Hopen)
    as (p1 & Hclose & _ & _ & Hnext & _ & Hagain & _).
  exists cs, p1. split_and!; assumption.
Defined.

(** C10 does not hold of the code.  Build a pool of four sockets, call [Next]
    three times (the cursor is 3), let a rotation find only two sockets (the
    slice has length 2, the cursor is still 3): the next [Next] indexes the
    slice at 3 and panics. *)
Theorem Next_panics_after_a_shrinking_rotation :
  ∃ p,
    (newConnections 4 0 ;;; calls_Next 3 ;;; connections.rotate)%go
      (boot (sockets_left 6)) = Ret tt p
    ∧ connections.mu (connections.pool p) = false
    ∧ connections.len (connections.conns (connections.pool p)) = 2
    ∧ connections.nextWrite (connections.pool p) = 3
    ∧ connections.Next p = Panic "index out of range".
Proof.
  eexists. split; [vm_compute; reflexivity|]. by vm_compute.
Qed.

(** C5 does not hold of the code.  [Next] indexes the slice at the cursor as
    it finds it, and [rotate] replaces the slice without touching the cursor.
    Build a pool of four sockets, call [Next] three times, let a rotation
    find only two sockets: the pool holds a slice of N = 2 sockets with the
    cursor at 3.  The first of the 2N calls of [Next] panics, so the run
    returns no socket at all, where round robin would return each of the two
    sockets twice. *)
Theorem round_robin_breaks_after_a_shrinking_rotation :
  ∃ p cs,
    (newConnections 4 0 ;;; calls_Next 3 ;;; connections.rotate)%go
      (boot (sockets_left 6)) = Ret tt p
    ∧ connections.mu (connections.pool p) = false
    ∧ connections.conns (connections.pool p) = Some cs
    ∧ length cs = 2%nat
    ∧ calls_Next 1 p = Panic "index out of range"
    ∧ calls_Next (2 * length cs) p = Panic "index out of range".
Proof.
  eexists. eexists.
  split; [vm_compute; reflexivity|].
  split; [vm_compute; reflexivity|].
  split; [vm_compute; reflexivity|].
  split; [vm_compute; reflexivity|].
  split; vm_compute; reflexivity.
Qed.

(** C6 does not hold of the code.  [Close] closes [done] to stop the
    goroutine [rotations], but that goroutine may have taken a tick of its
    ticker already, or find both cases of its [select] ready and take the
    tick: it then runs [rotate] after [Close] has returned.  [rotate] does
    not test whether the slice is nil and fills it again.  On a pool of four
    sockets, closed, after that one rotation [Next] hands out a socket,
    [WriteMsg] writes the message and returns nil, and a second [Close]
    closes [done] once more and panics. *)
Theorem Close_does_not_stop_a_rotation_under_way :
  ∃ p0 p1 p2 sock p3 p4,
    newConnections 4 0 (boot generous) = Ret the_pool p0
    ∧ connections.Close p0 = Ret tt p1
    ∧ connections.conns (connections.pool p1) = None
    ∧ connections.Next p1 = Ret None p1
    ∧ connections.rotate p1 = Ret tt p2
    ∧ connections.len (connections.conns (connections.pool p2)) = 4
    ∧ connections.Next p2 = Ret (Some sock) p3
    ∧ connections.WriteMsg (inl [Byte.x00])
        (fun _ out => (Z.of_nat (length out), None)) p2 = Ret None p4
    ∧ connections.Close p2 = Panic "close of closed channel".
Proof.
  do 6 eexists.
  split; [vm_compute; reflexivity|].
  split; [vm_compute; reflexivity|].
  split; [vm_compute; reflexivity|].
  split; [vm_compute; reflexivity|].
  split; [vm_compute; reflexivity|].
  split; [vm_compute; reflexivity|].
  split; [vm_compute; reflexivity|].
  split; vm_compute; reflexivity.
Qed.

(** * Further properties *)

(** ** The correlation key is injective *)

Lemma digits_then_colon (d d' : Decimal.uint) (t t' : string) :
  (NilEmpty.string_of_uint d ++ String ":" t)%string
  = (NilEmpty.string_of_uint d' ++ String ":" t')%string ->
  d = d' ∧ t = t'.
Proof.
  revert d'. induction d as [|d IH|d IH|d IH|d IH|d IH|d IH|d IH|d IH|d IH|d IH];
    intros d'; destruct d'; simpl; intros Heq;
    try discriminate Heq;
    try (injection Heq as Heq; destruct (IH _ Heq) as [-> ->]; done).
  by injection Heq as ->.
Qed.

Lemma fmt_d_digits n : fmt_d n = NilEmpty.string_of_uint (N.to_uint n).
Proof.
  unfold fmt_d, NilZero.string_of_uint.
  destruct (N.to_uint n) eqn:Hn; try reflexivity.
  destruct n as [|p]; [discriminate|].
  by destruct (DecimalPos.Unsigned.to_uint_nonnil p).
Qed.

(** X1. Two (ID, name) pairs derive the same key exactly when the IDs are
    equal and the names are equal after stripping the trailing dot and
    lowercasing: queries with different transaction IDs never share a key. *)
Theorem xchgKey_injective id name id' name' :
  xchgKey id name = xchgKey id' name'
  ↔ id = id' ∧ ToLower (RemoveLastDot name) = ToLower (RemoveLastDot name').
Proof.
  split.
  - unfold xchgKey. rewrite !fmt_d_digits. intros Heq.
    apply digits_then_colon in Heq as [Hd Ht].
    split; [by apply DecimalN.Unsigned.to_uint_inj|done].
  - intros [-> Hn]. unfold xchgKey. by rewrite Hn.
Qed.

(** ** [delete] on any list of keys *)

Lemma delete_loop_any b keys : forall removed m,
  ∃ more,
    xchgMgr.delete_loop keys removed {| xchgMgr.mu := b; xchgMgr.xchgs := m |}
    = Ret (removed ++ more) {| xchgMgr.mu := b; xchgMgr.xchgs := without keys m |}
    ∧ length more = length keys
    ∧ ∀ i k, keys !! i = Some k ->
        more !! i = Some (if decide (k ∈ take i keys) then None else m !! k).
Proof.
  induction keys as [|k keys IH]; intros removed m.
  - exists []. rewrite app_nil_r. by split_and!.
  - destruct (IH (removed ++ [m !! k]) (base.delete k m)) as (more & Hrun & Hlen & Hnth).
    exists (m !! k :: more). split_and!.
    + cbn [xchgMgr.delete_loop]. unfold bind, gets, xchgMgr.set_xchgs, modify.
      cbn [xchgMgr.xchgs xchgMgr.mu]. rewrite Hrun. by rewrite <- app_assoc.
    + simpl. by rewrite Hlen.
    + intros [|i] k' Hk'; simpl in Hk'.
      * simplify_eq. simpl. destruct (decide (k' ∈ [])) as [Hin|_]; [|done].
        by apply not_elem_of_nil in Hin.
      * simpl. rewrite (Hnth i k' Hk'). f_equal.
        destruct (decide (k' = k)) as [->|Hne].
        -- rewrite lookup_delete_eq.
           destruct (decide (k ∈ k :: take i keys)) as [_|Hn]; [|destruct Hn; left].
           by destruct (decide (k ∈ take i keys)).
        -- rewrite lookup_delete_ne by done.
           destruct (decide (k' ∈ take i keys)) as [Hin|Hin],
                    (decide (k' ∈ k :: take i keys)) as [Hin'|Hin']; try done.
           ++ destruct Hin'. by right.
           ++ apply elem_of_cons in Hin' as [?|?]; done.
Qed.

(** X2. [delete] works on any list of keys: it returns one entry per key, in
    order, which is the record stored under the key, or nil when the key is
    not in the table or was already deleted earlier in the list; afterwards
    none of the keys is in the table and every other entry is as before. *)
Theorem delete_returns_one_entry_per_key keys r :
  ∃ removed r',
    xchgMgr.delete keys r = Ret removed r'
    ∧ xchgMgr.mu r' = xchgMgr.mu r
    ∧ length removed = length keys
    ∧ (∀ i k, keys !! i = Some k ->
         removed !! i
         = Some (if decide (k ∈ take i keys) then None else xchgMgr.xchgs r !! k))
    ∧ (∀ k, xchgMgr.xchgs r' !! k
            = if decide (k ∈ keys) then None else xchgMgr.xchgs r !! k).
Proof.
  destruct r as [b m]. unfold xchgMgr.delete.
  destruct (delete_loop_any b keys [] m) as (more & Hrun & Hlen & Hnth).
  exists more, {| xchgMgr.mu := b; xchgMgr.xchgs := without keys m |}.
  split_and!; [done|done|done|done|]. intros k. apply lookup_without.
Qed.

(** ** [updateTimestamp] *)

Lemma updateTimestamp_run_absent now id name r :
  xchgMgr.mu r = false ->
  xchgMgr.xchgs r !! xchgKey id name = None ->
  xchgMgr.updateTimestamp now id name r = Ret tt r.
Proof.
  destruct r as [b m]. simpl. intros -> Hnone. unfold xchgMgr.updateTimestamp.
  rewrite (critical_run _ _ {| xchgMgr.mu := true; xchgMgr.xchgs := m |} tt);
    [done|done| |done].
  unfold bind, gets. simpl. by rewrite Hnone.
Qed.

Lemma updateTimestamp_run_found now id name req r :
  xchgMgr.mu r = false ->
  xchgMgr.xchgs r !! xchgKey id name = Some req ->
  xchgMgr.updateTimestamp now id name r
  = Ret tt {| xchgMgr.mu := false;
              xchgMgr.xchgs := <[xchgKey id name := stamped now req]> (xchgMgr.xchgs r) |}.
Proof.
  destruct r as [b m]. simpl. intros -> Hsome. unfold xchgMgr.updateTimestamp.
  rewrite (critical_run _ _
    {| xchgMgr.mu := true;
       xchgMgr.xchgs := <[xchgKey id name := stamped now req]> m |} tt);
    [done|done| |done].
  unfold bind, gets. simpl. by rewrite Hsome.
Qed.

(** X3. [updateTimestamp] with a key under which nothing is stored returns
    without changing the table.  With the key of a stored record it sets that
    record's timestamp to the current time and changes nothing else: the
    record's other fields and every other entry stay as they were. *)
Theorem updateTimestamp_touches_one_timestamp now id name r :
  xchgMgr.mu r = false ->
  (xchgMgr.xchgs r !! xchgKey id name = None ->
   xchgMgr.updateTimestamp now id name r = Ret tt r)
  ∧ (∀ req,
       xchgMgr.xchgs r !! xchgKey id name = Some req ->
       ∃ r',
         xchgMgr.updateTimestamp now id name r = Ret tt r'
         ∧ xchgMgr.mu r' = false
         ∧ (∃ req', xchgMgr.xchgs r' !! xchgKey id name = Some req'
                    ∧ Timestamp req' = now
                    ∧ (Ctx req', ID req', Name req', Qtype req', Msg req', Result req')
                      = (Ctx req, ID req, Name req, Qtype req, Msg req, Result req))
         ∧ (∀ k, k ≠ xchgKey id name ->
                 xchgMgr.xchgs r' !! k = xchgMgr.xchgs r !! k)).
Proof.
  intros Hfree. split.
  - by apply updateTimestamp_run_absent.
  - intros req Hsome. eexists. split; [by apply updateTimestamp_run_found|].
    simpl. split_and!; [done| |].
    + exists (stamped now req). by rewrite lookup_insert_eq.
    + intros k Hk. by rewrite lookup_insert_ne.
Qed.

Lemma updateTimestamp_witness :
  xchgMgr.mu two_pending = false
  ∧ ∃ r',
      xchgMgr.updateTimestamp 5000000000 8 "Example.ORG." two_pending = Ret tt r'
      ∧ ∃ req', xchgMgr.xchgs r' !! xchgKey 8 "Example.ORG." = Some req'
                ∧ Timestamp req' = 5000000000.
Proof.
  split; [reflexivity|].
  destruct (updateTimestamp_touches_one_timestamp 5000000000 8 "Example.ORG."
              two_pending eq_refl) as [_ Hfound].
  destruct (Hfound (query 8 "example.org" 0) ltac:(vm_compute; reflexivity))
    as (r' & Hrun & _ & (req' & Hreq & Hts & _) & _).
  exists r'. split; [exact Hrun|]. exists req'. split; assumption.
Defined.

(** ** How the table operations compose *)

Lemma keyed_empty : keyed ∅.
Proof. intros k req Hk. by rewrite lookup_empty in Hk. Qed.

Lemma keyed_insert m req :
  keyed m -> keyed (<[xchgKey (ID req) (Name req) := req]> m).
Proof.
  intros Hm k req' Hk. destruct (decide (k = xchgKey (ID req) (Name req))) as [->|Hne].
  - rewrite lookup_insert_eq in Hk. by simplify_eq.
  - rewrite lookup_insert_ne in Hk by done. by apply Hm.
Qed.

Lemma keyed_stamped m id name now req :
  keyed m -> m !! xchgKey id name = Some req ->
  keyed (<[xchgKey id name := stamped now req]> m).
Proof.
  intros Hm Hreq k req' Hk. destruct (decide (k = xchgKey id name)) as [->|Hne].
  - rewrite lookup_insert_eq in Hk. simplify_eq. simpl. by apply Hm.
  - rewrite lookup_insert_ne in Hk by done. by apply Hm.
Qed.

Lemma keyed_subseteq m m' : m' ⊆ m -> keyed m -> keyed m'.
Proof. intros Hsub Hm k req Hk. apply Hm. by eapply lookup_weaken. Qed.

Lemma filter_none {A} (P : A -> Prop) `{!∀ x, Decision (P x)} (l : list A) :
  (∀ x, x ∈ l -> ¬ P x) -> filter P l = [].
Proof.
  induction l as [|x l IH]; intros Hno; [done|].
  rewrite filter_cons_False by (apply Hno; left). apply IH.
  intros y Hy. apply Hno. by right.
Qed.

Section MoreSweeps.
Variable range : gmap string request -> list (string * request).
Hypothesis range_visits_all : forall m, range m ≡ₚ map_to_list m.

(** X4. A record whose timestamp [updateTimestamp] has just set to a
    non-zero [now] is returned by a sweep at time [t] exactly when [t] is
    strictly after [now] plus the timeout; a sweep at or before that instant
    leaves it in the table. *)
Theorem refreshed_record_expires_after_the_timeout QueryTimeout now t id name req r :
  xchgMgr.mu r = false ->
  xchgMgr.xchgs r !! xchgKey id name = Some req ->
  now ≠ 0 ->
  ∃ r1 removed r2,
    xchgMgr.updateTimestamp now id name r = Ret tt r1
    ∧ xchgMgr.removeExpired range QueryTimeout t r1 = Ret removed r2
    ∧ (Some (stamped now req) ∈ removed ↔ now + QueryTimeout < t)
    ∧ (xchgMgr.xchgs r2 !! xchgKey id name = None ↔ now + QueryTimeout < t)
    ∧ (t <= now + QueryTimeout ->
       xchgMgr.xchgs r2 !! xchgKey id name = Some (stamped now req)).
Proof.
  intros Hfree Hreq Hnz. eexists _, _, _.
  split; [by apply updateTimestamp_run_found|].
  split; [by apply removeExpired_run|]. cbn [xchgMgr.xchgs].
  set (m1 := <[xchgKey id name := stamped now req]> (xchgMgr.xchgs r)).
  assert (H1 : m1 !! xchgKey id name = Some (stamped now req))
    by (subst m1; apply lookup_insert_eq).
  assert (HE : Expired QueryTimeout t (stamped now req) ↔ now + QueryTimeout < t)
    by (unfold Expired; simpl; tauto).
  split_and!.
  - rewrite list_elem_of_fmap. split.
    + intros [[k v] [Heq Hin]]. simpl in Heq. simplify_eq.
      apply list_elem_of_filter in Hin as [HP _]. simpl in HP. exact (proj1 HE HP).
    + intros Hlt. exists (xchgKey id name, stamped now req). split; [done|].
      apply list_elem_of_filter. split; [exact (proj2 HE Hlt)|]. by apply elem_of_range.
  - rewrite map_lookup_filter_None. split.
    + intros [Hnone|Hall]; [congruence|]. apply (proj1 HE).
      destruct (decide (Expired QueryTimeout t (stamped now req))) as [|Hn]; [done|].
      by destruct (Hall _ H1).
    + intros Hlt. right. intros v Hv Hn. simplify_eq. simpl in Hn.
      exact (Hn (proj2 HE Hlt)).
  - intros Hle. apply map_lookup_filter_Some. split; [done|]. simpl.
    rewrite HE. lia.
Qed.

(** X6. A sweep followed by a drain hands out every pending record exactly
    once: the records [removeExpired] returns together with those the
    following [removeAll] returns are the records the table held, and the
    table ends empty. *)
Theorem sweep_then_drain_returns_each_record_once QueryTimeout now r :
  xchgMgr.mu r = false ->
  ∃ expired r1 rest r2,
    xchgMgr.removeExpired range QueryTimeout now r = Ret expired r1
    ∧ xchgMgr.removeAll range r1 = Ret rest r2
    ∧ expired ++ rest ≡ₚ (fun kv => Some kv.2) <$> map_to_list (xchgMgr.xchgs r)
    ∧ xchgMgr.xchgs r2 = ∅.
Proof.
  intros Hfree. eexists _, _, _, _.
  split; [by apply removeExpired_run|].
  split; [by apply removeAll_run|]. cbn [xchgMgr.xchgs]. split; [|done].
  rewrite !range_visits_all.
  rewrite <- (map_to_list_filter (fun kv => ¬ Expired QueryTimeout now kv.2)).
  rewrite <- fmap_app. apply fmap_Permutation, filter_app_complement.
Qed.

(** X7. A sweep leaves nothing for a sweep at the same or an earlier instant:
    run again with the same timeout and a time not after the first one,
    [removeExpired] returns no record and does not change the table. *)
Theorem second_sweep_finds_nothing QueryTimeout now now' r :
  xchgMgr.mu r = false ->
  now' <= now ->
  ∃ removed r1,
    xchgMgr.removeExpired range QueryTimeout now r = Ret removed r1
    ∧ xchgMgr.removeExpired range QueryTimeout now' r1 = Ret [] r1.
Proof.
  intros Hfree Hle. eexists _, _. split; [by apply removeExpired_run|].
  rewrite removeExpired_run by done. cbn [xchgMgr.xchgs].
  set (m1 := filter (fun kv : string * request => ¬ Expired QueryTimeout now kv.2)
                    (xchgMgr.xchgs r)).
  assert (Hkeep : ∀ k v, m1 !! k = Some v -> ¬ Expired QueryTimeout now' v).
  { intros k v Hv [Hnz Hlt]. apply map_lookup_filter_Some in Hv as [_ Hn].
    apply Hn. split; [done|]. simpl. lia. }
  rewrite (filter_none _ (range m1)).
  - simpl. do 2 f_equal. apply map_filter_id. intros k v Hv. by eapply Hkeep.
  - intros [k v] Hin. apply (elem_of_range range range_visits_all) in Hin.
    by eapply Hkeep.
Qed.

(** X8. Removing a record frees its key: after [remove] has returned the
    record stored under the key of [req], [add] of [req] succeeds and stores
    it under that key. *)
Theorem remove_frees_the_key req old r :
  xchgMgr.mu r = false ->
  xchgMgr.xchgs r !! xchgKey (ID req) (Name req) = Some old ->
  ∃ err r1 r2,
    xchgMgr.add req r = Ret (Some err) r
    ∧ xchgMgr.remove (ID req) (Name req) r = Ret (Some old) r1
    ∧ xchgMgr.add req r1 = Ret None r2
    ∧ xchgMgr.xchgs r2 = <[xchgKey (ID req) (Name req) := req]> (xchgMgr.xchgs r).
Proof.
  intros Hfree Hold. eexists _, _, _.
  split; [by apply add_run_taken|].
  split; [by apply remove_run_found|].
  split; [apply add_run_fresh; [done|]; simpl; apply lookup_delete_eq|].
  simpl. apply insert_delete_eq.
Qed.

(** X5. Starting from a table in which every record is stored under the key
    its own ID and name derive (the new table is one), every sequence of
    [add], [updateTimestamp], [remove], [removeExpired] and [removeAll] calls
    returns: no call panics or blocks, each call gives its reply, the mutex is
    free again, and every record is still stored under its own key. *)
Theorem table_calls_always_return calls : forall r,
  xchgMgr.mu r = false ->
  keyed (xchgMgr.xchgs r) ->
  ∃ replies r',
    run_table_calls range calls r = Ret replies r'
    ∧ length replies = length calls
    ∧ xchgMgr.mu r' = false
    ∧ keyed (xchgMgr.xchgs r').
Proof.
  induction calls as [|c calls IH]; intros r Hfree Hkeyed.
  - by exists [], r.
  - assert (Hstep : ∃ reply r1, run_table_call range c r = Ret reply r1
                                ∧ xchgMgr.mu r1 = false ∧ keyed (xchgMgr.xchgs r1)).
    { destruct c as [req|now id name|id name|QueryTimeout now|]; simpl; unfold bind.
      - destruct (xchgMgr.xchgs r !! xchgKey (ID req) (Name req)) as [old|] eqn:Hk.
        + rewrite add_run_taken by (done || by eexists). by eexists _, _.
        + rewrite add_run_fresh by done. eexists _, _. split; [done|].
          split; [done|]. by apply keyed_insert.
      - destruct (xchgMgr.xchgs r !! xchgKey id name) as [old|] eqn:Hk.
        + rewrite (updateTimestamp_run_found now id name old) by done.
          eexists _, _. split; [done|]. split; [done|]. by apply keyed_stamped.
        + rewrite updateTimestamp_run_absent by done. by eexists _, _.
      - destruct (xchgMgr.xchgs r !! xchgKey id name) as [old|] eqn:Hk.
        + rewrite (remove_run_found id name old) by done.
          eexists _, _. split; [done|]. split; [done|].
          eapply keyed_subseteq; [apply delete_subseteq|done].
        + rewrite remove_run_absent by done. by eexists _, _.
      - rewrite removeExpired_run by done. eexists _, _. split; [done|].
        split; [done|]. eapply keyed_subseteq; [apply map_filter_subseteq|done].
      - rewrite removeAll_run by done. eexists _, _. split; [done|].
        split; [done|]. apply keyed_empty. }
    destruct Hstep as (reply & r1 & Hrun & Hfree1 & Hkeyed1).
    destruct (IH r1 Hfree1 Hkeyed1) as (replies & r' & Hruns & Hlen & Hfree' & Hkeyed').
    exists (reply :: replies), r'. cbn [run_table_calls]. unfold bind.
    rewrite Hrun, Hruns. split_and!; [done|simpl; by rewrite Hlen|done|done].
Qed.
End MoreSweeps.

(** ** The composition theorems at a concrete table *)

Lemma refreshed_record_witness :
  xchgMgr.mu two_pending = false
  ∧ xchgMgr.xchgs two_pending !! xchgKey 8 "example.org" = Some (query 8 "example.org" 0)
  ∧ 5000000000 ≠ 0
  ∧ ∃ r1 removed r2,
      xchgMgr.updateTimestamp 5000000000 8 "example.org" two_pending = Ret tt r1
      ∧ xchgMgr.removeExpired map_to_list time.Second 6000000000 r1 = Ret removed r2
      ∧ xchgMgr.xchgs r2 !! xchgKey 8 "example.org"
        = Some (stamped 5000000000 (query 8 "example.org" 0)).
Proof.
  assert (Hreq : xchgMgr.xchgs two_pending !! xchgKey 8 "example.org"
                 = Some (query 8 "example.org" 0)) by (vm_compute; reflexivity).
  split; [reflexivity|]. split; [exact Hreq|]. split; [discriminate|].
  destruct (refreshed_record_expires_after_the_timeout map_to_list
              (fun m => reflexivity (map_to_list m))
              time.Second 5000000000 6000000000 8 "example.org"
              (query 8 "example.org" 0) two_pending eq_refl Hreq ltac:(discriminate))
    as (r1 & removed & r2 & Hup & Hsweep & _ & _ & Hstay).
  exists r1, removed, r2. split; [exact Hup|]. split; [exact Hsweep|].
  apply Hstay. unfold time.Second. lia.
Defined.

Lemma sweep_then_drain_witness :
  xchgMgr.mu two_pending = false
  ∧ ∃ expired r1 rest r2,
      xchgMgr.removeExpired map_to_list time.Second 3000000001 two_pending
      = Ret expired r1
      ∧ xchgMgr.removeAll map_to_list r1 = Ret rest r2
      ∧ expired ++ rest
        ≡ₚ (fun kv => Some kv.2) <$> map_to_list (xchgMgr.xchgs two_pending).
Proof.
  split; [reflexivity|].
  destruct (sweep_then_drain_returns_each_record_once map_to_list
              (fun m => reflexivity (map_to_list m))
              time.Second 3000000001 two_pending eq_refl)
    as (expired & r1 & rest & r2 & H1 & H2 & H3 & _).
  exists expired, r1, rest, r2. split_and!; assumption.
Defined.

Lemma second_sweep_witness :
  xchgMgr.mu two_pending = false
  ∧ 3000000000 <= 3000000001
  ∧ ∃ removed r1,
      xchgMgr.removeExpired map_to_list time.Second 3000000001 two_pending
      = Ret removed r1
      ∧ xchgMgr.removeExpired map_to_list time.Second 3000000000 r1 = Ret [] r1.
Proof.
  split; [reflexivity|]. split; [lia|].
  exact (second_sweep_finds_nothing map_to_list
           (fun m => reflexivity (map_to_list m))
           time.Second 3000000001 3000000000 two_pending eq_refl ltac:(lia)).
Defined.

Lemma remove_frees_the_key_witness :
  xchgMgr.mu two_pending = false
  ∧ xchgMgr.xchgs two_pending !! xchgKey 7 "Example.COM."
    = Some (query 7 "example.com" 2000000000)
  ∧ ∃ r1 r2,
      xchgMgr.remove 7 "Example.COM." two_pending
      = Ret (Some (query 7 "example.com" 2000000000)) r1
      ∧ xchgMgr.add (query 7 "Example.COM." 0) r1 = Ret None r2.
Proof.
  assert (Hold : xchgMgr.xchgs two_pending !! xchgKey 7 "Example.COM."
                 = Some (query 7 "example.com" 2000000000))
    by (vm_compute; reflexivity).
  split; [reflexivity|]. split; [exact Hold|].
  destruct (remove_frees_the_key (query 7 "Example.COM." 0)
              (query 7 "example.com" 2000000000) two_pending eq_refl Hold)
    as (err & r1 & r2 & _ & Hrm & Hadd & _).
  exists r1, r2. split; assumption.
Defined.

Lemma table_calls_witness :
  xchgMgr.mu newXchgMgr = false
  ∧ keyed (xchgMgr.xchgs newXchgMgr)
  ∧ ∃ replies r',
      run_table_calls map_to_list
        [call_add (query 7 "example.com" 0);
         call_updateTimestamp 1000000000 7 "example.com";
         call_removeExpired time.Second 3000000000;
         call_remove 7 "example.com";
         call_removeAll] newXchgMgr = Ret replies r'
      ∧ length replies = 5%nat
      ∧ keyed (xchgMgr.xchgs r').
Proof.
  split; [reflexivity|]. split; [exact keyed_empty|].
  destruct (table_calls_always_return map_to_list
              (fun m => reflexivity (map_to_list m))
              [call_add (query 7 "example.com" 0);
               call_updateTimestamp 1000000000 7 "example.com";
               call_removeExpired time.Second 3000000000;
               call_remove 7 "example.com";
               call_removeAll] newXchgMgr eq_refl keyed_empty)
    as (replies & r' & Hrun & Hlen & _ & Hkeyed).
  exists replies, r'. split_and!; assumption.
Defined.

(** ** More of the connection pool: [Next] and [WriteMsg] *)

Lemma Next_empty_run p :
  connections.mu (connections.pool p) = false ->
  connections.len (connections.conns (connections.pool p)) = 0 ->
  connections.Next p = Ret None p.
Proof.
  destruct p as [[mu done conns resps nw cpus] closed chans spawned linux listens os].
  simpl. intros -> Hlen. destruct conns as [cs|]; [|reflexivity].
  unfold connections.Next, critical, Lock, Unlock. run_step. by rewrite Hlen.
Qed.

(** X9. [Next] on a pool whose slice is nil or empty returns nil and leaves
    the pool as it is.  On a non-empty slice it panics exactly when the cursor
    is outside the slice (negative, or not below the length); it never blocks
    when the mutex is free. *)
Theorem Next_panics_exactly_when_the_cursor_is_outside p :
  connections.mu (connections.pool p) = false ->
  connections.len (connections.conns (connections.pool p)) < 2 ^ 63 ->
  (connections.len (connections.conns (connections.pool p)) = 0 ->
   connections.Next p = Ret None p)
  ∧ (connections.len (connections.conns (connections.pool p)) ≠ 0 ->
     (∃ sock p', connections.Next p = Ret (Some sock) p')
     ∨ connections.Next p = Panic "index out of range")
  ∧ (connections.len (connections.conns (connections.pool p)) ≠ 0 ->
     (connections.Next p = Panic "index out of range"
      ↔ connections.nextWrite (connections.pool p) < 0
        ∨ connections.len (connections.conns (connections.pool p))
          <= connections.nextWrite (connections.pool p))).
Proof.
  intros Hmu Hlen.
  assert (Hcases : connections.len (connections.conns (connections.pool p)) ≠ 0 ->
    (0 <= connections.nextWrite (connections.pool p)
          < connections.len (connections.conns (connections.pool p))
     ∧ ∃ sock p', connections.Next p = Ret (Some sock) p')
    ∨ ((connections.nextWrite (connections.pool p) < 0
        ∨ connections.len (connections.conns (connections.pool p))
          <= connections.nextWrite (connections.pool p))
       ∧ connections.Next p = Panic "index out of range")).
  { intros Hne. destruct (connections.conns (connections.pool p)) as [cs|] eqn:Hcs;
      [|by destruct Hne].
    unfold connections.len in *. simpl in *.
    assert (Hcs' : cs ≠ []) by (intros ->; by destruct Hne).
    assert (HN : connections.Next p
                 = connections.Next
                     (pool_at p cs (connections.nextWrite (connections.pool p))))
      by (by rewrite pool_at_id).
    rewrite HN.
    destruct (decide (0 <= connections.nextWrite (connections.pool p)
                      < Z.of_nat (length cs))) as [Hin|Hout].
    - left. split; [done|].
      destruct (lookup_lt_is_Some_2 cs
                  (Z.to_nat (connections.nextWrite (connections.pool p))))
        as [c Hc]; [lia|].
      rewrite (Next_run p cs _ c) by (done || lia). by eexists _, _.
    - right. split; [lia|]. apply Next_out_of_range; [done|lia]. }
  split_and!.
  - by apply Next_empty_run.
  - intros Hne. destruct (Hcases Hne) as [[_ Hret]|[_ Hpanic]]; [by left|by right].
  - intros Hne. destruct (Hcases Hne) as [[Hin (sock & p' & Hret)]|[Hout Hpanic]].
    + rewrite Hret. split; [discriminate|lia].
    + by rewrite Hpanic.
Qed.

(** X10. [WriteMsg] returns the packing error, without touching the pool,
    when the message does not pack.  When it packs and [Next] gives the socket
    under the cursor, the cursor moves on by one whatever the write does, and
    [WriteMsg] returns nil exactly when the write returned no error and wrote
    at least the packed length; a write error is returned as it is, and a
    short write is an error of its own. *)
Theorem WriteMsg_outcomes p cs c packed WriteTo :
  connections.mu (connections.pool p) = false ->
  connections.conns (connections.pool p) = Some cs ->
  Z.of_nat (length cs) < 2 ^ 63 ->
  0 <= connections.nextWrite (connections.pool p) ->
  cs !! Z.to_nat (connections.nextWrite (connections.pool p)) = Some c ->
  match packed with
  | inr err => connections.WriteMsg packed WriteTo p = Ret (Some err) p
  | inl out =>
      ∃ reply,
        connections.WriteMsg packed WriteTo p
        = Ret reply
            (connections.with_pool
               (connections.set_nextWrite
                  ((connections.nextWrite (connections.pool p) + 1)
                   mod Z.of_nat (length cs))) p)
        ∧ (reply = None
           ↔ (WriteTo (connection.conn c) out).2 = None
             ∧ Z.of_nat (length out) <= (WriteTo (connection.conn c) out).1)
        ∧ (∀ err, (WriteTo (connection.conn c) out).2 = Some err -> reply = Some err)
  end.
Proof.
  intros Hmu Hcs Hlen Hcur Hc. destruct packed as [out|err]; [|reflexivity].
  unfold connections.WriteMsg, bind.
  assert (HN : connections.Next p
               = connections.Next
                   (pool_at p cs (connections.nextWrite (connections.pool p))))
    by (by rewrite pool_at_id).
  rewrite HN, (Next_run p cs _ c) by done.
  rewrite (pool_at_cursor p cs _ Hmu Hcs).
  destruct (WriteTo (connection.conn c) out) as [n [err|]] eqn:Hw; simpl.
  - eexists. split; [done|]. split; [|by intros ? [= ->]].
    split; [discriminate|]. by intros [? _].
  - destruct (n <? Z.of_nat (length out)) eqn:Hn.
    + apply Z.ltb_lt in Hn. eexists. split; [done|]. split; [|discriminate].
      split; [discriminate|]. intros [_ ?]. lia.
    + apply Z.ltb_ge in Hn. eexists. split; [done|]. split; [|discriminate]. done.
Qed.

(** ** The channels of the pool *)

Lemma Add_sound p e p' :
  sound_channels p -> connections.Add p = Ret e p' -> sound_channels p'.
Proof.
  destruct p as [[mu done conns resps nw cpus] closed chans spawned linux listens os].
  unfold sound_channels, channels. cbn -[default].
  intros (Hnd & Hall & Hcl).
  assert (Hok : ∀ conn,
    NoDup (done :: (connection.done <$>
             default [] conns ++ [{| connection.conn := conn; connection.done := chans |}]))
    ∧ Forall (fun ch => (ch < S chans)%nat ∧ ch ∉ closed)
        (done :: (connection.done <$>
           default [] conns ++ [{| connection.conn := conn; connection.done := chans |}]))
    ∧ Forall (fun ch => (ch < S chans)%nat) closed).
  { intros conn. rewrite fmap_app. simpl.
    change (done :: (connection.done <$> default [] conns) ++ [chans])
      with ((done :: (connection.done <$> default [] conns)) ++ [chans]).
    split_and!.
    - apply NoDup_app. split; [done|]. split; [|apply NoDup_singleton].
      intros ch Hch ->%list_elem_of_singleton.
      rewrite Forall_forall in Hall. destruct (Hall _ Hch). lia.
    - apply Forall_app. split.
      + eapply Forall_impl; [exact Hall|]. simpl. intros ch [? ?]. split; [lia|done].
      + apply Forall_singleton. split; [lia|]. intros Hin.
        rewrite Forall_forall in Hcl. specialize (Hcl _ Hin). lia.
    - eapply Forall_impl; [exact Hcl|]. simpl. lia. }
  unfold connections.Add, connections.linuxListenPacket, connections.listen_packet,
    connections.make_chan, connections.go.
  unfold bind, gets, modify, ret. cbn -[default].
  destruct linux; cbn -[default];
    (match goal with |- context [os ?k ?a] => destruct (os k a) as [conn|err] end);
    cbn -[default]; intros [= <- <-]; cbn -[default];
    first [exact (Hok _) | by split_and!].
Qed.

Lemma rotate_loop_sound n : forall p p',
  sound_channels p -> connections.rotate_loop n p = Ret tt p' -> sound_channels p'.
Proof.
  induction n as [|n IH]; intros p p' Hs Hrun.
  - by injection Hrun as <-.
  - destruct (Add_run p) as (p1 & Hadd & _). cbn [connections.rotate_loop] in Hrun.
    unfold bind in Hrun. rewrite Hadd in Hrun.
    eapply IH; [|exact Hrun]. by eapply Add_sound.
Qed.

Lemma rotate_unfold p p1 :
  connections.mu (connections.pool p) = false ->
  connections.rotate_loop (Z.to_nat (connections.cpus (connections.pool p)))
    (rotate_start p) = Ret tt p1 ->
  connections.rotate p = Ret tt (set_held false p1).
Proof.
  intros Hmu Hloop.
  destruct (rotate_loop_run (Z.to_nat (connections.cpus (connections.pool p)))
              (rotate_start p)) as (p1' & Hloop' & Hf & _).
  rewrite Hloop in Hloop'. injection Hloop' as <-.
  destruct p as [[mu done conns resps nw cpus] closed chans spawned linux listens os].
  simpl in Hmu. subst mu. unfold connections.rotate.
  apply critical_run; [reflexivity| |].
  - unfold bind at 1. unfold gets. unfold bind at 1.
    rewrite for_each_go_run. unfold bind at 1. unfold modify.
    unfold bind at 1. exact Hloop.
  - simpl. by rewrite (frame_mu _ _ Hf).
Qed.

Lemma sound_rotate_start p : sound_channels p -> sound_channels (rotate_start p).
Proof.
  destruct p as [[mu done conns resps nw cpus] closed chans spawned linux listens os].
  unfold sound_channels, channels. simpl. intros (Hnd & Hall & Hcl).
  apply NoDup_cons in Hnd as [_ _]. apply Forall_cons in Hall as [Hd _].
  split_and!; [apply NoDup_singleton|by apply Forall_singleton|done].
Qed.

Lemma sound_set_held b p : sound_channels p -> sound_channels (set_held b p).
Proof. by destruct p as [[]]. Qed.

Lemma rotate_sound p :
  connections.mu (connections.pool p) = false ->
  sound_channels p ->
  ∃ p',
    connections.rotate p = Ret tt p'
    ∧ sound_channels p'
    ∧ same_frame p p'
    ∧ is_Some (connections.conns (connections.pool p'))
    ∧ 0 <= connections.len (connections.conns (connections.pool p'))
        <= Z.of_nat (Z.to_nat (connections.cpus (connections.pool p)))
    ∧ (grants p (Z.to_nat (connections.cpus (connections.pool p))) ->
       connections.len (connections.conns (connections.pool p'))
       = Z.of_nat (Z.to_nat (connections.cpus (connections.pool p)))).
Proof.
  intros Hmu Hs.
  destruct (rotate_run p Hmu) as (p' & Hrun & Hrest).
  exists p'. split; [done|]. split; [|done].
  destruct (rotate_loop_run (Z.to_nat (connections.cpus (connections.pool p)))
              (rotate_start p)) as (p1 & Hloop & _).
  rewrite (rotate_unfold p p1 Hmu Hloop) in Hrun. injection Hrun as <-.
  apply sound_set_held. eapply rotate_loop_sound; [|exact Hloop].
  by apply sound_rotate_start.
Qed.

Lemma newConnections_loop_sound n : forall p p',
  sound_channels p -> newConnections_loop n p = Ret false p' -> sound_channels p'.
Proof.
  induction n as [|n IH]; intros p p' Hs Hrun.
  - by injection Hrun as <-.
  - destruct (Add_run p) as (p1 & Hadd & _). cbn [newConnections_loop] in Hrun.
    unfold bind at 1 in Hrun. rewrite Hadd in Hrun.
    destruct (connections.ListenPacket p _ _) as [conn|err].
    + eapply IH; [|exact Hrun]. by eapply Add_sound.
    + unfold bind, ret in Hrun. by destruct (connections.Close p1).
Qed.

Lemma newConnections_unfold cpus resps p p1 :
  newConnections_loop (Z.to_nat cpus) (newConnections_start cpus resps p) = Ret false p1 ->
  connections.mu (connections.pool p1) = true ->
  newConnections cpus resps p
  = Ret the_pool (set_held false (after (connections.go go_rotations) p1)).
Proof.
  intros Hloop Hmu. unfold newConnections, bind at 1. unfold connections.make_chan.
  unfold bind at 1. unfold modify. apply critical_run.
  - reflexivity.
  - unfold bind at 1.
    change (set_held true _) with (newConnections_start cpus resps p).
    rewrite Hloop. reflexivity.
  - destruct p1 as [[]]. exact Hmu.
Qed.

Lemma sound_newConnections_start cpus resps p :
  Forall (fun ch => (ch < connections.chans p)%nat) (connections.closed p) ->
  sound_channels (newConnections_start cpus resps p).
Proof.
  intros Hcl. unfold sound_channels, channels. simpl. split_and!.
  - apply NoDup_singleton.
  - apply Forall_singleton. split; [lia|]. intros Hin.
    rewrite Forall_forall in Hcl. specialize (Hcl _ Hin). lia.
  - eapply Forall_impl; [exact Hcl|]. simpl. lia.
Qed.

Lemma sound_after_go g p : sound_channels p -> sound_channels (after (connections.go g) p).
Proof. by destruct p as [[]]. Qed.

Lemma newConnections_sound p cpus resps :
  Forall (fun ch => (ch < connections.chans p)%nat) (connections.closed p) ->
  grants p (Z.to_nat cpus) ->
  ∃ p',
    newConnections cpus resps p = Ret the_pool p'
    ∧ sound_channels p'
    ∧ connections.mu (connections.pool p') = false
    ∧ connections.cpus (connections.pool p') = cpus
    ∧ connections.nextWrite (connections.pool p') = 0
    ∧ connections.len (connections.conns (connections.pool p')) = Z.of_nat (Z.to_nat cpus)
    ∧ connections.ListenPacket p' = connections.ListenPacket p.
Proof.
  intros Hcl Hg.
  destruct (newConnections_loop_granted (Z.to_nat cpus) (newConnections_start cpus resps p))
    as (p1 & Hloop & Hf & Hlen); [exact Hg|].
  pose proof (frame_mu _ _ Hf) as Hmu. simpl in Hmu.
  exists (set_held false (after (connections.go go_rotations) p1)).
  split; [by apply newConnections_unfold|].
  split; [apply sound_set_held, sound_after_go;
          eapply newConnections_loop_sound; [|exact Hloop];
          by apply sound_newConnections_start|].
  destruct Hf as [_ _ Hnw Hcpus _ _ Hos]. simpl in *.
  destruct p1 as [[]]. simpl in *. by split_and!.
Qed.

Lemma rotations_sound n : forall p,
  connections.mu (connections.pool p) = false ->
  sound_channels p ->
  ∃ p',
    rotations_in_a_row n p = Ret tt p'
    ∧ connections.mu (connections.pool p') = false
    ∧ sound_channels p'.
Proof.
  induction n as [|n IH]; intros p Hmu Hs.
  - by exists p.
  - destruct (rotate_sound p Hmu Hs) as (p1 & Hrun & Hs1 & Hf & _).
    destruct (IH p1) as (p' & Hrun' & Hmu' & Hs'); [by rewrite (frame_mu _ _ Hf)|done|].
    exists p'. cbn [rotations_in_a_row]. unfold bind. rewrite Hrun. by split_and!.
Qed.

Lemma Close_sound_run p :
  connections.mu (connections.pool p) = false ->
  sound_channels p ->
  ∃ p',
    connections.Close p = Ret tt p'
    ∧ connections.conns (connections.pool p') = None
    ∧ connections.mu (connections.pool p') = false
    ∧ (is_Some (connections.conns (connections.pool p)) ->
       ∀ ch, ch ∈ channels (connections.pool p) -> ch ∈ connections.closed p').
Proof.
  intros Hmu (Hnd & Hall & _).
  destruct (connections.conns (connections.pool p)) as [cs|] eqn:Hcs.
  - eexists. split.
    + eapply Close_open_run; [done|done|done|].
      intros ch Hch. rewrite Forall_forall in Hall. by destruct (Hall _ Hch).
    + split; [done|]. split; [by destruct p as [[]]|]. intros _ ch Hch.
      cbn [connections.with_pool connections.closed close_all]. apply elem_of_app. left.
      by rewrite list_elem_of_In, <- in_rev, <- list_elem_of_In.
  - exists p. split; [by apply Close_closed_run|]. split_and!; [done|done|].
    by intros [].
Qed.

(** X11. Whatever the operating system grants after the construction, the
    channels of the pool stay pairwise distinct and open through any number
    of rotations, so the [Close] that follows returns: it closes no channel
    twice, closes every channel of the pool, and leaves the slice nil. *)
Theorem Close_returns_after_any_rotations p cpus resps n :
  Forall (fun ch => (ch < connections.chans p)%nat) (connections.closed p) ->
  grants p (Z.to_nat cpus) ->
  ∃ p1 p2 p3,
    newConnections cpus resps p = Ret the_pool p1
    ∧ rotations_in_a_row n p1 = Ret tt p2
    ∧ NoDup (channels (connections.pool p2))
    ∧ connections.Close p2 = Ret tt p3
    ∧ connections.conns (connections.pool p3) = None
    ∧ (is_Some (connections.conns (connections.pool p2)) ->
       ∀ ch, ch ∈ channels (connections.pool p2) -> ch ∈ connections.closed p3).
Proof.
  intros Hcl Hg.
  destruct (newConnections_sound p cpus resps Hcl Hg) as (p1 & Hnew & Hs1 & Hmu1 & _).
  destruct (rotations_sound n p1 Hmu1 Hs1) as (p2 & Hrot & Hmu2 & Hs2).
  destruct (Close_sound_run p2 Hmu2 Hs2) as (p3 & Hclose & Hnil & _ & Hall).
  exists p1, p2, p3. split_and!; try done. by destruct Hs2.
Qed.

Lemma Close_after_rotations_witness :
  Forall (fun ch => (ch < connections.chans (boot (sockets_left 6)))%nat)
         (connections.closed (boot (sockets_left 6)))
  ∧ grants (boot (sockets_left 6)) (Z.to_nat 4)
  ∧ ∃ p1 p2 p3,
      newConnections 4 0 (boot (sockets_left 6)) = Ret the_pool p1
      ∧ rotations_in_a_row 3 p1 = Ret tt p2
      ∧ connections.Close p2 = Ret tt p3
      ∧ connections.conns (connections.pool p3) = None.
Proof.
  assert (Hcl : Forall (fun ch => (ch < connections.chans (boot (sockets_left 6)))%nat)
                       (connections.closed (boot (sockets_left 6))))
    by apply Forall_nil_2.
  assert (Hg : grants (boot (sockets_left 6)) (Z.to_nat 4)).
  { intros k laddr Hk. simpl in Hk. exists (100 + k)%nat.
    unfold boot, sockets_left. simpl.
    destruct (Nat.ltb_spec k 6) as [_|Hge]; [reflexivity|lia]. }
  split; [exact Hcl|]. split; [exact Hg|].
  destruct (Close_returns_after_any_rotations (boot (sockets_left 6)) 4 0%nat 3 Hcl Hg)
    as (p1 & p2 & p3 & H1 & H2 & _ & H3 & H4 & _).
  exists p1, p2, p3. split_and!; assumption.
Defined.

(** ** The pool on a system that never refuses a socket *)

Lemma generous_grants p n : generous_os p -> grants p n.
Proof. intros Hg k laddr _. apply Hg. Qed.

Lemma steady_cursor p cur :
  steady p ->
  0 <= cur < connections.cpus (connections.pool p) ->
  steady (connections.with_pool (connections.set_nextWrite cur) p).
Proof.
  destruct p as [[mu done conns resps nw cpus] closed chans spawned linux listens os].
  unfold steady, sound_channels, generous_os, channels. simpl.
  intros (? & (? & ? & ?) & ? & ? & ? & ?) ?.
  split_and!; first [assumption | lia].
Qed.

Lemma steady_Next p :
  steady p ->
  ∃ sock p',
    connections.Next p = Ret (Some sock) p' ∧ steady p'
    ∧ connections.cpus (connections.pool p') = connections.cpus (connections.pool p).
Proof.
  intros Hst. pose proof Hst as (Hmu & _ & _ & Hcpus & Hlen & Hcur).
  destruct (connections.conns (connections.pool p)) as [cs|] eqn:Hcs;
    [|unfold connections.len in Hlen; simpl in Hlen; lia].
  unfold connections.len in Hlen. simpl in Hlen.
  destruct (lookup_lt_is_Some_2 cs (Z.to_nat (connections.nextWrite (connections.pool p))))
    as [c Hc]; [lia|].
  assert (HN : connections.Next p
               = connections.Next
                   (pool_at p cs (connections.nextWrite (connections.pool p))))
    by (by rewrite pool_at_id).
  rewrite HN, (Next_run p cs _ c), (pool_at_cursor p cs _ Hmu Hcs) by (done || lia).
  eexists _, _. split; [done|]. split; [|by destruct p as [[]]].
  apply steady_cursor; [done|].
  rewrite Hlen. apply Z.mod_pos_bound. lia.
Qed.

Lemma steady_WriteMsg p packed WriteTo :
  steady p ->
  ∃ e p',
    connections.WriteMsg packed WriteTo p = Ret e p' ∧ steady p'
    ∧ connections.cpus (connections.pool p') = connections.cpus (connections.pool p).
Proof.
  intros Hst. unfold connections.WriteMsg. destruct packed as [out|err].
  - destruct (steady_Next p Hst) as (sock & p' & Hnext & Hst' & Hc').
    unfold bind. rewrite Hnext.
    destruct (WriteTo sock out) as [n [err|]]; [by eexists _, _|].
    destruct (n <? Z.of_nat (length out)); by eexists _, _.
  - by eexists _, _.
Qed.

Lemma steady_rotate p :
  steady p ->
  ∃ p', connections.rotate p = Ret tt p' ∧ steady p'
        ∧ connections.cpus (connections.pool p') = connections.cpus (connections.pool p).
Proof.
  intros (Hmu & Hs & Hg & Hcpus & Hlen & Hcur).
  destruct (rotate_sound p Hmu Hs) as (p' & Hrun & Hs' & Hf & _ & _ & Hfull).
  exists p'. split; [done|]. destruct Hf as [Hmu' _ Hnw' Hcpus' _ _ Hos'].
  split; [|done].
  unfold steady. rewrite Hmu', Hnw', Hcpus'.
  split_and!;
    first [ done | lia
          | unfold generous_os; by rewrite Hos'
          | rewrite Hfull by (by apply generous_grants); lia ].
Qed.

Lemma steady_steps steps : forall p,
  steady p ->
  ∃ replies p',
    run_pool_steps steps p = Ret replies p'
    ∧ Forall gives_a_socket replies
    ∧ steady p'
    ∧ connections.cpus (connections.pool p') = connections.cpus (connections.pool p).
Proof.
  induction steps as [|s steps IH]; intros p Hst.
  - exists [], p. by split_and!.
  - assert (Hstep : ∃ r p1, run_pool_step s p = Ret r p1 ∧ gives_a_socket r ∧ steady p1
                            ∧ connections.cpus (connections.pool p1)
                              = connections.cpus (connections.pool p)).
    { destruct s as [|packed WriteTo|]; simpl; unfold bind.
      - destruct (steady_Next p Hst) as (sock & p1 & -> & Hst1 & Hc1).
        eexists _, _. split; [done|]. split; [by eexists|done].
      - destruct (steady_WriteMsg p packed WriteTo Hst) as (e & p1 & -> & Hst1 & Hc1).
        by eexists _, _.
      - destruct (steady_rotate p Hst) as (p1 & -> & Hst1 & Hc1). by eexists _, _. }
    destruct Hstep as (r & p1 & Hrun & Hr & Hst1 & Hc1).
    destruct (IH p1 Hst1) as (rs & p' & Hruns & Hrs & Hst' & Hc').
    exists (r :: rs), p'. cbn [run_pool_steps]. unfold bind. rewrite Hrun, Hruns.
    split_and!; [done|by constructor|done|congruence].
Qed.

(** X12. On a system that never refuses a socket, a pool built for
    1 <= N < 2^63 processing units never fails: the construction returns the
    pool; then every sequence of [Next] calls, [WriteMsg] calls and rotations
    returns, each [Next] in it gives a socket, the slice keeps N sockets and
    the cursor stays inside it; and the [Close] that follows returns and
    leaves the pool closed. *)
Theorem pool_never_fails_on_a_generous_system p cpus resps steps :
  generous_os p ->
  Forall (fun ch => (ch < connections.chans p)%nat) (connections.closed p) ->
  1 <= cpus < 2 ^ 63 ->
  ∃ p1 replies p2 p3,
    newConnections cpus resps p = Ret the_pool p1
    ∧ run_pool_steps steps p1 = Ret replies p2
    ∧ Forall gives_a_socket replies
    ∧ connections.len (connections.conns (connections.pool p2)) = cpus
    ∧ 0 <= connections.nextWrite (connections.pool p2) < cpus
    ∧ connections.Close p2 = Ret tt p3
    ∧ connections.conns (connections.pool p3) = None.
Proof.
  intros Hg Hcl Hcpus.
  destruct (newConnections_sound p cpus resps Hcl (generous_grants p _ Hg))
    as (p1 & Hnew & Hs1 & Hmu1 & Hc1 & Hnw1 & Hlen1 & Hos1).
  assert (Hst1 : steady p1).
  { unfold steady. rewrite Hmu1, Hc1, Hnw1, Hlen1. split_and!; try done; try lia.
    unfold generous_os. by rewrite Hos1. }
  destruct (steady_steps steps p1 Hst1) as (replies & p2 & Hrun & Hrs & Hst2 & Hc2).
  pose proof Hst2 as (Hmu2 & Hs2 & _ & _ & Hlen2 & Hcur2).
  destruct (Close_sound_run p2 Hmu2 Hs2) as (p3 & Hclose & Hnil & _).
  rewrite Hc2, Hc1 in Hlen2, Hcur2.
  exists p1, replies, p2, p3. split_and!; first [done | lia].
Qed.

(** ** Rotation and construction at their edges *)

(** X13. [rotate] does not look whether the pool is closed: run on a pool
    whose slice is nil (never filled, or closed by [Close]), it leaves a
    non-nil slice with the sockets the system grants, closes no channel, and
    [Next] gives out a socket again. *)
Theorem rotate_reopens_a_closed_pool p :
  connections.mu (connections.pool p) = false ->
  connections.conns (connections.pool p) = None ->
  1 <= connections.cpus (connections.pool p) < 2 ^ 63 ->
  0 <= connections.nextWrite (connections.pool p) < connections.cpus (connections.pool p) ->
  grants p (Z.to_nat (connections.cpus (connections.pool p))) ->
  ∃ p' sock p'',
    connections.rotate p = Ret tt p'
    ∧ connections.len (connections.conns (connections.pool p'))
      = connections.cpus (connections.pool p)
    ∧ connections.closed p' = connections.closed p
    ∧ connections.Next p' = Ret (Some sock) p''.
Proof.
  intros Hmu Hnil Hcpus Hcur Hg.
  destruct (rotate_run p Hmu) as (p' & Hrun & Hf & [cs Hcs] & _ & Hfull).
  specialize (Hfull Hg). rewrite Hcs in Hfull. unfold connections.len in Hfull.
  simpl in Hfull. destruct Hf as [Hmu' _ Hnw' _ Hcl' _ _].
  destruct (lookup_lt_is_Some_2 cs (Z.to_nat (connections.nextWrite (connections.pool p'))))
    as [c Hc]; [rewrite Hnw'; lia|].
  assert (HN : connections.Next p'
               = connections.Next
                   (pool_at p' cs (connections.nextWrite (connections.pool p'))))
    by (rewrite pool_at_id; [done|congruence|done]).
  exists p', (connection.conn c). eexists. split; [done|]. split.
  - rewrite Hcs. unfold connections.len. simpl. lia.
  - split; [done|]. rewrite HN. apply Next_run; [lia|rewrite Hnw'; lia|done].
Qed.

(** X14. With no processing unit to serve (cpus <= 0) [newConnections] asks
    the system for nothing and still returns a pool: its slice is nil, [Next]
    returns nil, and [Close] takes it for closed already, so the channel that
    stops the rotation timer is never closed. *)
Theorem newConnections_without_units p cpus resps :
  cpus <= 0 ->
  ∃ p',
    newConnections cpus resps p = Ret the_pool p'
    ∧ connections.conns (connections.pool p') = None
    ∧ connections.listens p' = connections.listens p
    ∧ go_rotations ∈ connections.spawned p'
    ∧ connections.Next p' = Ret None p'
    ∧ connections.Close p' = Ret tt p'
    ∧ connections.closed p' = connections.closed p.
Proof.
  intros Hle. unfold newConnections.
  replace (Z.to_nat cpus) with 0%nat by lia.
  destruct p as [[mu done conns resps0 nw cpus0] closed chans spawned linux listens os].
  eexists. split; [reflexivity|]. simpl. split_and!; try reflexivity.
  apply elem_of_app. right. left.
Qed.

(** ** Witnesses *)

Lemma Next_cases_witness :
  connections.mu (connections.pool four_sockets) = false
  ∧ connections.len (connections.conns (connections.pool four_sockets)) < 2 ^ 63
  ∧ (connections.Next four_sockets = Panic "index out of range"
     ↔ connections.nextWrite (connections.pool four_sockets) < 0
       ∨ connections.len (connections.conns (connections.pool four_sockets))
         <= connections.nextWrite (connections.pool four_sockets)).
Proof.
  assert (Hmu : connections.mu (connections.pool four_sockets) = false)
    by (vm_compute; reflexivity).
  assert (Hlen : connections.len (connections.conns (connections.pool four_sockets)) < 2 ^ 63)
    by (vm_compute; reflexivity).
  split; [exact Hmu|]. split; [exact Hlen|].
  destruct (Next_panics_exactly_when_the_cursor_is_outside four_sockets Hmu Hlen)
    as (_ & _ & Hiff).
  apply Hiff. vm_compute. discriminate.
Defined.

Lemma WriteMsg_witness :
  connections.mu (connections.pool four_sockets) = false
  ∧ 0 <= connections.nextWrite (connections.pool four_sockets)
  ∧ ∃ cs c reply p',
      connections.conns (connections.pool four_sockets) = Some cs
      ∧ cs !! Z.to_nat (connections.nextWrite (connections.pool four_sockets)) = Some c
      ∧ connections.WriteMsg (inl []) (fun _ _ => (0, None)) four_sockets = Ret reply p'
      ∧ reply = None.
Proof.
  assert (Hmu : connections.mu (connections.pool four_sockets) = false)
    by (vm_compute; reflexivity).
  assert (Hcur : 0 <= connections.nextWrite (connections.pool four_sockets))
    by (vm_compute; discriminate).
  assert (Hcs : ∃ cs c, connections.conns (connections.pool four_sockets) = Some cs
                        ∧ Z.of_nat (length cs) < 2 ^ 63
                        ∧ cs !! Z.to_nat (connections.nextWrite
                                            (connections.pool four_sockets)) = Some c).
  { eexists _, _. split; [vm_compute; reflexivity|].
    split; [vm_compute; reflexivity|]. vm_compute. reflexivity. }
  destruct Hcs as (cs & c & Hcs & Hlen & Hc).
  split; [exact Hmu|]. split; [exact Hcur|].
  destruct (WriteMsg_outcomes four_sockets cs c (inl []) (fun _ _ => (0, None))
              Hmu Hcs Hlen Hcur Hc) as (reply & Hrun & Hiff & _).
  exists cs, c, reply. eexists. split; [exact Hcs|]. split; [exact Hc|].
  split; [exact Hrun|]. apply Hiff. split; [reflexivity|simpl; lia].
Defined.

Lemma generous_system_witness :
  generous_os (boot generous)
  ∧ Forall (fun ch => (ch < connections.chans (boot generous))%nat)
           (connections.closed (boot generous))
  ∧ 1 <= 4 < 2 ^ 63
  ∧ ∃ p1 replies p2 p3,
      newConnections 4 0 (boot generous) = Ret the_pool p1
      ∧ run_pool_steps [step_Next; step_rotate; step_Next; step_Next] p1 = Ret replies p2
      ∧ Forall gives_a_socket replies
      ∧ connections.Close p2 = Ret tt p3.
Proof.
  assert (Hg : generous_os (boot generous)) by (intros k laddr; eexists; reflexivity).
  assert (Hcl : Forall (fun ch => (ch < connections.chans (boot generous))%nat)
                       (connections.closed (boot generous))) by apply Forall_nil_2.
  assert (Hn : 1 <= 4 < 2 ^ 63) by (split; [lia|reflexivity]).
  split; [exact Hg|]. split; [exact Hcl|]. split; [exact Hn|].
  destruct (pool_never_fails_on_a_generous_system (boot generous) 4 0%nat
              [step_Next; step_rotate; step_Next; step_Next] Hg Hcl Hn)
    as (p1 & replies & p2 & p3 & H1 & H2 & H3 & _ & _ & H4 & _).
  exists p1, replies, p2, p3. split_and!; assumption.
Defined.

Lemma rotate_reopens_witness :
  connections.mu (connections.pool closed_pool) = false
  ∧ connections.conns (connections.pool closed_pool) = None
  ∧ 1 <= connections.cpus (connections.pool closed_pool) < 2 ^ 63
  ∧ 0 <= connections.nextWrite (connections.pool closed_pool)
       < connections.cpus (connections.pool closed_pool)
  ∧ grants closed_pool (Z.to_nat (connections.cpus (connections.pool closed_pool)))
  ∧ ∃ p' sock p'',
      connections.rotate closed_pool = Ret tt p'
      ∧ connections.Next p' = Ret (Some sock) p''.
Proof.
  assert (Hmu : connections.mu (connections.pool closed_pool) = false)
    by (vm_compute; reflexivity).
  assert (Hnil : connections.conns (connections.pool closed_pool) = None)
    by (vm_compute; reflexivity).
  assert (Hcpus : 1 <= connections.cpus (connections.pool closed_pool) < 2 ^ 63)
    by (vm_compute; split; [discriminate|reflexivity]).
  assert (Hcur : 0 <= connections.nextWrite (connections.pool closed_pool)
                    < connections.cpus (connections.pool closed_pool))
    by (vm_compute; split; [discriminate|reflexivity]).
  assert (Hg : grants closed_pool
                 (Z.to_nat (connections.cpus (connections.pool closed_pool)))).
  { intros k laddr _. exists (100 + (connections.listens closed_pool + k))%nat.
    change (connections.ListenPacket closed_pool) with generous. reflexivity. }
  split; [exact Hmu|]. split; [exact Hnil|]. split; [exact Hcpus|].
  split; [exact Hcur|]. split; [exact Hg|].
  destruct (rotate_reopens_a_closed_pool closed_pool Hmu Hnil Hcpus Hcur Hg)
    as (p' & sock & p'' & Hrot & _ & _ & Hnext).
  exists p', sock, p''. split; assumption.
Defined.

Lemma newConnections_without_units_witness :
  0 <= 0
  ∧ ∃ p', newConnections 0 0 (boot generous) = Ret the_pool p'
          ∧ connections.conns (connections.pool p') = None
          ∧ connections.Close p' = Ret tt p'.
Proof.
  split; [lia|].
  destruct (newConnections_without_units (boot generous) 0 0%nat ltac:(lia))
    as (p' & H1 & H2 & _ & _ & _ & H3 & _).
  exists p'. split_and!; assumption.
Defined.

(** ** What a rotation replaces *)





(** ** The read loop *)

Lemma omap_cons {A B} (f : A -> option B) (x : A) (l : list A) :
  omap f (x :: l) = option_list (f x) ++ omap f l.
Proof. change (omap f (x :: l)) with (match f x with
                                      | Some y => y :: omap f l
                                      | None => omap f l
                                      end). by destruct (f x). Qed.

Lemma responses_run {dnsMsg : Type} (Unpack : list Byte.byte -> dnsMsg + string)
    (Question : dnsMsg -> nat) (turns : list turn) : forall r,
  responses Unpack Question turns r
  = Ret (if existsb is_done turns then loop_returned else loop_reading)
        {| resps_queue := resps_queue r ++ omap (accepted Unpack Question) (until_done turns);
           conn_closed := conn_closed r || existsb is_done turns |}.
Proof.
  induction turns as [|t turns IH]; intros r.
  - destruct r. simpl. unfold ret. by rewrite app_nil_r, orb_false_r.
  - destruct t as [|data addr err].
    + simpl. unfold bind, modify, ret. by rewrite app_nil_r, orb_true_r.
    + assert (Hlen : (headerSize <=? Z.of_nat (length (take DefaultMsgSize data)))
                     = bool_decide (12 <= length data)%nat).
      { unfold headerSize, DefaultMsgSize. rewrite length_take.
        destruct (decide (12 <= length data)%nat) as [H|H].
        - rewrite bool_decide_eq_true_2 by done. apply Z.leb_le. lia.
        - rewrite bool_decide_eq_false_2 by done. apply Z.leb_gt. lia. }
      cbn [responses]. cbn zeta. unfold bind at 1.
      match goal with |- match ?body r with _ => _ end = _ =>
        assert (Hbody : body r
                        = Ret tt {| resps_queue :=
                                      resps_queue r
                                      ++ option_list (accepted Unpack Question
                                                        (turn_read data addr err));
                                    conn_closed := conn_closed r |})
      end.
      { unfold accepted. destruct err as [e|].
        - destruct r. unfold ret. simpl. by rewrite app_nil_r.
        - rewrite Hlen. destruct (Unpack (take DefaultMsgSize data)) as [m|e].
          + destruct (decide (12 <= length data ∧ 1 <= Question m)%nat) as [[H1 H2]|Hn].
            * rewrite bool_decide_eq_true_2 by done.
              by rewrite (proj2 (Nat.ltb_lt 0 (Question m))) by lia.
            * destruct (bool_decide (12 <= length data)%nat) eqn:Hb.
              -- apply bool_decide_eq_true in Hb.
                 rewrite (proj2 (Nat.ltb_ge 0 (Question m))) by lia.
                 destruct r. unfold ret. simpl. by rewrite app_nil_r.
              -- destruct r. unfold ret. simpl. by rewrite app_nil_r.
          + destruct (bool_decide (12 <= length data)%nat);
              destruct r; unfold ret; simpl; by rewrite app_nil_r. }
      rewrite Hbody, IH. cbn [resps_queue conn_closed until_done existsb is_done orb].
      by rewrite omap_cons, <- app_assoc.
Qed.

Lemma until_done_app before after :
  Forall (fun t => is_done t = false) before ->
  until_done (before ++ after) = before ++ until_done after.
Proof.
  induction 1 as [|t before Ht _ IH]; [done|].
  destruct t; [done|]. simpl. by rewrite IH.
Qed.

Lemma existsb_not_done before :
  Forall (fun t => is_done t = false) before -> existsb is_done before = false.
Proof. induction 1 as [|t before Ht _ IH]; [done|]. simpl. by rewrite Ht, IH. Qed.

(** X16. A datagram that is read with an error, or is shorter than the DNS
    header (12 bytes), or does not unpack, or unpacks into a message without a
    question, leaves no trace: the loop goes on as if the datagram had never
    arrived, with the same queue, the same socket and the same end. *)
Theorem responses_drops_a_rejected_datagram {dnsMsg : Type}
    (Unpack : list Byte.byte -> dnsMsg + string) (Question : dnsMsg -> nat)
    before data addr err after r :
  (is_Some err
   ∨ (length data < 12)%nat
   ∨ (∃ e, Unpack (take DefaultMsgSize data) = inr e)
   ∨ (∃ m, Unpack (take DefaultMsgSize data) = inl m ∧ Question m = 0%nat)) ->
  responses Unpack Question (before ++ turn_read data addr err :: after) r
  = responses Unpack Question (before ++ after) r.
Proof.
  intros Hrej. rewrite !responses_run.
  assert (Hacc : accepted Unpack Question (turn_read data addr err) = None).
  { simpl. destruct Hrej as [[e ->]|[Hshort|[[e ->]|(m & -> & Hq)]]]; try done.
    - destruct err; [done|]. destruct (Unpack _); [|done].
      by rewrite decide_False by lia.
    - by destruct err.
    - destruct err; [done|]. by rewrite decide_False by lia. }
  assert (Hd : existsb is_done (before ++ turn_read data addr err :: after)
               = existsb is_done (before ++ after))
    by (by rewrite !existsb_app).
  assert (Hu : omap (accepted Unpack Question)
                 (until_done (before ++ turn_read data addr err :: after))
               = omap (accepted Unpack Question) (until_done (before ++ after))).
  { clear Hd. induction before as [|t before IH].
    - cbn [app until_done]. by rewrite omap_cons, Hacc.
    - destruct t; [done|]. cbn [app until_done]. by rewrite !omap_cons, IH. }
  by rewrite Hd, Hu.
Qed.

(** X17. The loop hands the accepted datagrams to the queue in the order of
    their arrival, behind what the queue held, and nothing else.  It returns
    only when it finds the channel closed: then it closes its socket, and what
    arrives later is never read; as long as the channel is open the loop is
    still reading and its socket is as it was. *)
Theorem responses_enqueues_in_arrival_order {dnsMsg : Type}
    (Unpack : list Byte.byte -> dnsMsg + string) (Question : dnsMsg -> nat)
    before r :
  Forall (fun t => is_done t = false) before ->
  responses Unpack Question before r
  = Ret loop_reading
        {| resps_queue := resps_queue r ++ omap (accepted Unpack Question) before;
           conn_closed := conn_closed r |}
  ∧ ∀ after,
      responses Unpack Question (before ++ turn_done :: after) r
      = Ret loop_returned
          {| resps_queue := resps_queue r ++ omap (accepted Unpack Question) before;
             conn_closed := true |}.
Proof.
  intros Hopen. split.
  - rewrite responses_run, (existsb_not_done before Hopen), orb_false_r.
    rewrite <- (app_nil_r before) at 1. rewrite until_done_app by done.
    by rewrite !app_nil_r.
  - intros after. rewrite responses_run, existsb_app. simpl.
    rewrite !orb_true_r. by rewrite until_done_app, app_nil_r by done.
Qed.

Lemma responses_drops_witness :
  (length [Byte.x01; Byte.x02] < 12)%nat
  ∧ responses toy_Unpack length
      [turn_read (replicate 13 Byte.x00) 7 None;
       turn_read [Byte.x01; Byte.x02] 8 None;
       turn_done] empty_reader
    = responses toy_Unpack length
        [turn_read (replicate 13 Byte.x00) 7 None; turn_done] empty_reader.
Proof.
  assert (Hshort : (length [Byte.x01; Byte.x02] < 12)%nat) by (simpl; lia).
  split; [exact Hshort|].
  exact (responses_drops_a_rejected_datagram toy_Unpack length
           [turn_read (replicate 13 Byte.x00) 7 None]
           [Byte.x01; Byte.x02] 8 None [turn_done] empty_reader
           (or_intror (or_introl Hshort))).
Defined.

Lemma responses_order_witness :
  Forall (fun t => is_done t = false)
    [turn_read (replicate 13 Byte.x00) 7 None; turn_read (replicate 14 Byte.x00) 9 None]
  ∧ responses toy_Unpack length
      [turn_read (replicate 13 Byte.x00) 7 None;
       turn_read (replicate 14 Byte.x00) 9 None;
       turn_done;
       turn_read (replicate 15 Byte.x00) 5 None] empty_reader
    = Ret loop_returned
        {| resps_queue := [ {| resp_Msg := [Byte.x00]; resp_Addr := 7%nat |};
                            {| resp_Msg := [Byte.x00; Byte.x00]; resp_Addr := 9%nat |} ];
           conn_closed := true |}.
Proof.
  assert (Hopen : Forall (fun t => is_done t = false)
            [turn_read (replicate 13 Byte.x00) 7 None;
             turn_read (replicate 14 Byte.x00) 9 None])
    by (repeat constructor).
  split; [exact Hopen|].
  destruct (responses_enqueues_in_arrival_order toy_Unpack length _ empty_reader Hopen)
    as [_ Hdone].
  exact (Hdone [turn_read (replicate 15 Byte.x00) 5 None]).
Defined.
